(** * CAnyMovable: a move-only type-erasing container (AnyMovable.h)

    A shallow embedding of [NSLibrary::CAnyMovable<TInterface, TImplementation>]
    and of the classes nested in it ([CObjectKeeper], its array
    specialisation, [CObjectStored]), together with the part of the C++
    language and of [std::unique_ptr] that the header relies on:

    - [CppTypes]: the type computation of the value constructor
      ([CObjType], template argument deduction for [T&&]);
    - [ArrayKeeper]: the specialisation [CObjectKeeper<T[Tsize]>];
    - [AnyMovable]: the container itself, over a store of container
      objects, a free store of erased objects and a trace of the
      constructor and destructor calls made on stored values. *)

From stdpp Require Import base option list strings gmap fin_maps.

Set Default Proof Using "Type".

(* ===================================================================== *)
(** ** Types of the value constructor *)
(* ===================================================================== *)

Module CppTypes.

(** The C++ types that can occur as the type of a constructor argument or
    as a deduced template argument. *)
#[local] Unset Elimination Schemes.
Inductive cpp_type : Type :=
  | Named (name : string)                         (* int, char, a class R *)
  | Const (t : cpp_type)                          (* const t *)
  | Volatile (t : cpp_type)                       (* volatile t *)
  | Pointer (t : cpp_type)                        (* t* *)
  | Array (t : cpp_type) (Tsize : nat)            (* t[Tsize] *)
  | Function (ret : cpp_type) (params : list cpp_type)
  | LRef (t : cpp_type)                           (* t& *)
  | RRef (t : cpp_type).                          (* t&& *)

#[local] Set Elimination Schemes.

(** The value category of the argument expression. *)
Inductive value_category := Lvalue | Rvalue.

Definition is_reference (t : cpp_type) : bool :=
  match t with LRef _ | RRef _ => true | _ => false end.

(** [std::remove_reference_t]. *)
Definition remove_reference_t (t : cpp_type) : cpp_type :=
  match t with
  | LRef u => u
  | RRef u => u
  | _ => t
  end.

(** [std::remove_cv_t]: the top-level cv-qualifiers are dropped. *)
Fixpoint remove_cv_t (t : cpp_type) : cpp_type :=
  match t with
  | Const u => remove_cv_t u
  | Volatile u => remove_cv_t u
  | _ => t
  end.

(** [std::decay_t], the type transformation the specification names:
    references are stripped, arrays and functions become pointers, and
    otherwise the top-level cv-qualifiers are dropped. *)
Definition decay_t (t : cpp_type) : cpp_type :=
  match remove_reference_t t with
  | Array u _ => Pointer u
  | Function r ps => Pointer (Function r ps)
  | u => remove_cv_t u
  end.

(** Template argument deduction for the forwarding reference [T&& Object]
    of [CAnyMovable(T&& Object)]: an lvalue argument of type [A] deduces
    [T = A&], an rvalue argument deduces [T = A]. *)
Definition deduce_T (cat : value_category) (A : cpp_type) : cpp_type :=
  match cat with
  | Lvalue => LRef A
  | Rvalue => A
  end.

(** [template<class T> using CObjType = std::remove_reference_t<T>;] *)
Definition CObjType (T : cpp_type) : cpp_type := remove_reference_t T.

(** The argument of [CObjectStored<...>] in the value constructor:
    [std::make_unique<CObjectStored<CObjType<T>>>(...)]. *)
Definition stored_type (cat : value_category) (A : cpp_type) : cpp_type :=
  CObjType (deduce_T cat A).

Definition int : cpp_type := Named "int".
Definition char : cpp_type := Named "char".

(** A type that is neither cv-qualified nor an array nor a function nor a
    reference: a fundamental or class type, or a pointer. *)
Definition unqualified_object (t : cpp_type) : bool :=
  match t with
  | Named _ | Pointer _ => true
  | _ => false
  end.

Example stored_type_int_lvalue : stored_type Lvalue int = int.
Proof. reflexivity. Qed.

Example stored_type_int_rvalue : stored_type Rvalue int = int.
Proof. reflexivity. Qed.

(** [x = std::move("123")] of the usage notes: the array is kept as an
    array, which is what the array specialisation of the keeper needs. *)
Example stored_type_string_literal :
  stored_type Rvalue (Array (Const char) 4) = Array (Const char) 4
  ∧ decay_t (deduce_T Rvalue (Array (Const char) 4)) = Pointer (Const char).
Proof. split; reflexivity. Qed.

Lemma stored_type_strips_reference_only cat A :
  is_reference A = false → stored_type cat A = A.
Proof. intros HA. destruct cat; [reflexivity|]. by destruct A. Qed.

(** C2, as amended.  The type stored by the value constructor is the
    argument's type with only the reference stripped
    ([std::remove_reference_t]): cv-qualifiers and array extents are kept,
    so a const lvalue argument is stored as a const-qualified object, and
    lvalue and rvalue arguments of the same (cv-qualified) type give the
    same stored type. *)
Theorem stored_type_is_reference_stripped (cat : value_category) (A : cpp_type) :
  is_reference A = false →
  stored_type cat A = remove_reference_t (deduce_T cat A)
  ∧ stored_type cat A = A
  ∧ stored_type Lvalue A = stored_type Rvalue A
  ∧ stored_type cat (Const A) = Const A.
Proof.
  intros HA. split; [reflexivity|].
  rewrite !stored_type_strips_reference_only by done. done.
Qed.

Lemma stored_type_is_reference_stripped_witness :
  is_reference (Array (Const char) 4) = false
  ∧ stored_type Rvalue (Array (Const char) 4) = Array (Const char) 4.
Proof.
  split; [reflexivity|].
  apply (stored_type_is_reference_stripped Rvalue (Array (Const char) 4)).
  reflexivity.
Defined.

(** C2, as stated, fails: for a const lvalue of type [int] the stored
    type is [const int], not the decayed type [int]; a const lvalue and a
    non-const rvalue of the same underlying type are stored under
    different types. *)
Lemma stored_type_not_decayed :
  stored_type Lvalue (Const int) = Const int
  ∧ decay_t (deduce_T Lvalue (Const int)) = int
  ∧ stored_type Lvalue (Const int) ≠ decay_t (deduce_T Lvalue (Const int))
  ∧ stored_type Lvalue (Const int) ≠ stored_type Rvalue int
  ∧ ¬ (∀ cat A, is_reference A = false →
         stored_type cat A = decay_t (deduce_T cat A)).
Proof.
  repeat split; try discriminate.
  intros H. specialize (H Lvalue (Const int) eq_refl). discriminate H.
Qed.

Lemma remove_cv_t_unqualified t :
  match remove_cv_t t with
  | Const _ | Volatile _ => False
  | _ => True
  end.
Proof.
  revert t. fix IH 1. intros [name|u|u|u|u n|r ps|u|u]; simpl; try exact I; apply IH.
Qed.

(** X12.  The stored type is the decayed type of the argument exactly
    when the argument's type is not cv-qualified and is neither an array
    nor a function: for those arguments, and only for those,
    [CObjType] and [std::decay_t] agree. *)
Theorem stored_type_is_decayed_iff (cat : value_category) (A : cpp_type) :
  is_reference A = false →
  stored_type cat A = decay_t (deduce_T cat A) ↔ unqualified_object A = true.
Proof.
  intros HA. rewrite stored_type_strips_reference_only by done.
  assert (decay_t (deduce_T cat A) = decay_t A) as ->.
  { by destruct cat, A. }
  destruct A as [name|u|u|u|u n|r ps|u|u]; try done; unfold decay_t; simpl.
  - split; [|done]. intros Heq.
    pose proof (remove_cv_t_unqualified u) as Hu. by rewrite <-Heq in Hu.
  - split; [|done]. intros Heq.
    pose proof (remove_cv_t_unqualified u) as Hu. by rewrite <-Heq in Hu.
Qed.

Lemma stored_type_is_decayed_iff_witness :
  is_reference (Pointer (Const char)) = false
  ∧ (stored_type Lvalue (Pointer (Const char))
       = decay_t (deduce_T Lvalue (Pointer (Const char)))
     ↔ unqualified_object (Pointer (Const char)) = true).
Proof.
  split; [reflexivity|].
  apply (stored_type_is_decayed_iff Lvalue (Pointer (Const char))). reflexivity.
Defined.

End CppTypes.

(* ===================================================================== *)
(** ** The keeper of a fixed-size array *)
(* ===================================================================== *)

Module ArrayKeeper.

Section Keeper.
(** [CBaseType = T], with its move constructor: the value the new element
    gets and the value the source element is left with. *)
Context {T : Type} (T_move : T → T * T).

(** [CObjectKeeper<T[Tsize]>]: one member, [CObjectType Object_] with
    [CObjectType = CBaseType[Tsize]]. *)
Record CObjectKeeper (Tsize : nat) : Type := Keeper { Object_ : list T }.
Arguments Keeper {Tsize} Object_.
Arguments Object_ {Tsize} _.

(** [CObjectType& Object()] and [const CObjectType& Object() const]. *)
Definition Object {Tsize} (k : CObjectKeeper Tsize) : list T := Object_ k.

(** [std::make_integer_sequence<size_t, Tsize>]: the indices 0 .. Tsize-1. *)
Definition make_integer_sequence (Tsize : nat) : list nat := seq 0 Tsize.

(** The initialisation of [Object_] under way: the argument array, the
    elements of [Object_] constructed so far, and the indices moved from. *)
Record initialising : Type := Initialising {
  source : list T;
  built : list T;
  moved : list nat;
}.

(** One initialiser clause [std::move(Object[i])]: the next element of
    [Object_] is move-constructed from [Object[i]].  [None]: the index is
    outside the argument array. *)
Definition move_element (i : nat) (st : initialising) : option initialising :=
  match source st !! i with
  | Some a =>
      let '(b, rest) := T_move a in
      Some (Initialising (<[i := rest]> (source st)) (built st ++ [b]) (moved st ++ [i]))
  | None => None
  end.

(** The pack expansion [Object_ { std::move(Object[TIndex])... }], whose
    clauses are evaluated in order. *)
Fixpoint move_elements (TIndex : list nat) (st : initialising) : option initialising :=
  match TIndex with
  | [] => Some st
  | i :: rest =>
      match move_element i st with
      | Some st' => move_elements rest st'
      | None => None
      end
  end.

(** The private constructor
    [CObjectKeeper(CObjectType&& Object, std::integer_sequence<size_t, TIndex...>)]:
    the keeper, the argument array as it is left, and the indices moved
    from. *)
Definition CObjectKeeper_indexed {Tsize} (Object : list T) (TIndex : list nat)
    : option (CObjectKeeper Tsize * list T * list nat) :=
  match move_elements TIndex (Initialising Object [] []) with
  | Some st => Some (Keeper (built st), source st, moved st)
  | None => None
  end.

(** [CObjectKeeper(CObjectType&& Object) noexcept], which delegates with
    [std::make_integer_sequence<size_t, Tsize>{}]. *)
Definition CObjectKeeper_ctor (Tsize : nat) (Object : list T)
    : option (CObjectKeeper Tsize * list T * list nat) :=
  CObjectKeeper_indexed Object (make_integer_sequence Tsize).

Lemma move_elements_seq pre post b mv :
  move_elements (seq (length pre) (length post)) (Initialising (pre ++ post) b mv) =
    Some (Initialising (pre ++ ((λ a, (T_move a).2) <$> post))
                       (b ++ ((λ a, (T_move a).1) <$> post))
                       (mv ++ seq (length pre) (length post))).
Proof.
  revert pre b mv. induction post as [|a post IH]; intros pre b mv.
  - simpl. by rewrite !app_nil_r.
  - simpl. unfold move_element. simpl.
    rewrite list_lookup_middle by done.
    destruct (T_move a) as [a' rest] eqn:Ha. simpl.
    replace (<[length pre := rest]> (pre ++ a :: post)) with ((pre ++ [rest]) ++ post).
    2:{ rewrite insert_app_r_alt by done. rewrite Nat.sub_diag. simpl.
        by rewrite <-app_assoc. }
    replace (S (length pre)) with (length (pre ++ [rest])) by (rewrite length_app; simpl; lia).
    rewrite IH, <-!app_assoc. reflexivity.
Qed.

(** C4.  A [T[Tsize]] with elements [a0 .. a(Tsize-1)] stored by move:
    the keeper move-constructs its elements one by one from the indices
    [0 .. Tsize-1], in that order and each once, and, the move
    constructor of [T] giving the new element the value of its source,
    [Object()] reads back [a0 .. a(Tsize-1)] in the same order. *)
Theorem array_round_trip (Tsize : nat) (a : list T) :
  length a = Tsize →
  (∀ e, (T_move e).1 = e) →
  ∃ (k : CObjectKeeper Tsize) (left : list T),
    CObjectKeeper_ctor Tsize a = Some (k, left, seq 0 Tsize)
    ∧ Object k = a
    ∧ length (Object k) = Tsize
    ∧ (∀ i, Object k !! i = a !! i)
    ∧ left = (λ e, (T_move e).2) <$> a.
Proof.
  intros Hlen Hmove.
  unfold CObjectKeeper_ctor, CObjectKeeper_indexed, make_integer_sequence.
  rewrite <-Hlen.
  pose proof (move_elements_seq [] a [] []) as Hrun. simpl in Hrun.
  rewrite Hrun. simpl.
  assert (((λ e, (T_move e).1) <$> a) = a) as Hsame.
  { rewrite <-(list_fmap_id a) at 2. apply list_fmap_ext. intros _ e _. apply Hmove. }
  eexists _, _. split; [reflexivity|]. unfold Object. simpl.
  rewrite Hsame. done.
Qed.

(** X13.  Whatever the move constructor of the element type does, the
    keeper's element [i] is what that constructor makes from the
    argument's element [i], and the argument's element [i] is left as
    that one move leaves it: every element is moved from once, none is
    skipped and none is read after it was moved from. *)
Theorem array_moves_each_element_once (Tsize : nat) (a : list T) :
  length a = Tsize →
  ∃ (k : CObjectKeeper Tsize) (left : list T),
    CObjectKeeper_ctor Tsize a = Some (k, left, seq 0 Tsize)
    ∧ length (Object k) = Tsize
    ∧ length left = Tsize
    ∧ ∀ i e, a !! i = Some e →
        Object k !! i = Some (T_move e).1 ∧ left !! i = Some (T_move e).2.
Proof.
  intros Hlen.
  unfold CObjectKeeper_ctor, CObjectKeeper_indexed, make_integer_sequence.
  rewrite <-Hlen.
  pose proof (move_elements_seq [] a [] []) as Hrun. simpl in Hrun.
  rewrite Hrun. simpl. eexists _, _. split; [reflexivity|]. unfold Object. simpl.
  rewrite !length_fmap. split; [done|]. split; [done|].
  intros i e Hi. by rewrite !list_lookup_fmap, Hi.
Qed.

End Keeper.

Lemma array_moves_each_element_once_witness :
  length [3; 1; 4] = 3
  ∧ ∃ (k : CObjectKeeper 3) (left : list nat),
      CObjectKeeper_ctor (λ e, (e + 10, 0)) 3 [3; 1; 4] = Some (k, left, seq 0 3)
      ∧ length (Object k) = 3
      ∧ length left = 3
      ∧ ∀ i e, [3; 1; 4] !! i = Some e →
          Object k !! i = Some ((λ e, (e + 10, 0)) e).1
          ∧ left !! i = Some ((λ e, (e + 10, 0)) e).2.
Proof.
  split; [reflexivity|].
  apply (array_moves_each_element_once (λ e, (e + 10, 0)) 3 [3; 1; 4]). reflexivity.
Defined.

Lemma array_round_trip_witness :
  ∃ (k : CObjectKeeper 3) (left : list nat),
    CObjectKeeper_ctor (λ e, (e, 0)) 3 [3; 1; 4] = Some (k, left, seq 0 3)
    ∧ Object k = [3; 1; 4]
    ∧ length (Object k) = 3
    ∧ (∀ i, Object k !! i = [3; 1; 4] !! i)
    ∧ left = (λ e, ((λ e, (e, 0)) e).2) <$> [3; 1; 4].
Proof.
  apply (array_round_trip (λ e, (e, 0)) 3 [3; 1; 4]).
  - reflexivity.
  - intros e. reflexivity.
Defined.

End ArrayKeeper.

(* ===================================================================== *)
(** ** The container *)
(* ===================================================================== *)

Module AnyMovable.

Export CppTypes(value_category(..)).

(** What the consumer supplies: the types that are stored, their
    constructors, and the two template families [TInterface] and
    [TImplementation].  A call of the interface is a method together
    with its actual arguments; [TImplementation T m v] is the override of
    [m] in [TImplementation<CObjectKeeper<T>, T>] run on [Object() = v]:
    its result and the value [Object()] is left with. *)
Class Consumer := {
  TObject : Type;
  value : TObject → Type;
  (* the argument packs T can be constructed from; [None]: T's
     constructor throws *)
  TArgs : TObject → Type;
  construct : ∀ T, TArgs T → option (value T);
  (* T's copy constructor (may throw) and move constructor *)
  copy_construct : ∀ T, value T → option (value T);
  move_construct : ∀ T, value T → value T;
  Method : Type;
  Result : Type;
  (* whether the method is declared const in TInterface *)
  const_method : Method → bool;
  TImplementation : ∀ T, Method → value T → Result * value T;
}.

(** Addresses on the free store. *)
Abbreviation loc := positive.

(** How an operation ends. *)
Inductive outcome (A : Type) : Type :=
  | Done (a : A)        (* it returns *)
  | Throw               (* an exception leaves it *)
  | Undefined.          (* undefined behaviour *)
Arguments Done {A} a.
Arguments Throw {A}.
Arguments Undefined {A}.

Section Container.
Context `{Consumer}.

(** *** Stored objects *)

(** [CObjectKeeper<TObject>]: one member, [TObject Object_]. *)
Record CObjectKeeper (T : TObject) : Type := Keeper { Object_ : value T }.
Arguments Keeper {T} Object_.
Arguments Object_ {T} _.

(** [TObject& Object()] and [const TObject& Object() const]. *)
Definition Object {T} (k : CObjectKeeper T) : value T := Object_ k.

(** An object seen through [IObjectStored].  Its dynamic type is
    [CObjectStored<T>] for some [T] that the static type does not show;
    [CObjectStored<T>] derives from
    [TImplementation<CObjectKeeper<T>, T>] and adds no member, so its
    state is the keeper's and its methods are [TImplementation T]. *)
Record IObjectStored : Type := CObjectStored {
  dynamic_type : TObject;
  keeper : CObjectKeeper dynamic_type;
}.

(** The arguments of [make_unique<CObjectStored<T>>(...)]. *)
Inductive pack (T : TObject) : Type :=
  | RvalueOf (Object : value T)     (* one argument, an rvalue of type T *)
  | LvalueOf (Object : value T)     (* one argument, an lvalue of type T *)
  | Args (args : TArgs T).          (* any other argument pack *)
Arguments RvalueOf {T} Object.
Arguments LvalueOf {T} Object.
Arguments Args {T} args.

(** [std::forward<T>(Object)] in the value constructor. *)
Definition forward {T} (cat : value_category) (Object : value T) : pack T :=
  match cat with
  | Lvalue => LvalueOf Object
  | Rvalue => RvalueOf Object
  end.

(** *** Memory *)

(** The calls made on stored values, oldest first. *)
Inductive event : Type :=
  | EvConstruct (T : TObject)     (* a constructor of T is called for an Object_ *)
  | EvDestroy (T : TObject).      (* an Object_ of type T is destroyed *)

(** [CStoredPtr = std::unique_ptr<IObjectStored>]: the raw pointer it
    owns, [None] being [nullptr]. *)
Definition CStoredPtr : Type := option loc.

(** [class CAnyMovable]: its only member is [CStoredPtr pIObject_]. *)
Record CAnyMovable : Type := AnyMovable { pIObject_ : CStoredPtr }.

Record state : Type := State {
  objects : gmap string CAnyMovable;     (* the containers alive, by name *)
  heap : gmap loc IObjectStored;         (* the free store *)
  trace : list event;
}.

Definition initial : state := State ∅ ∅ [].

(** State and exception monad of the operations. *)
Definition M (A : Type) : Type := state → outcome A * state.

Definition ret {A} (a : A) : M A := λ s, (Done a, s).

Definition bind {A B} (m : M A) (f : A → M B) : M B := λ s,
  match m s with
  | (Done a, s') => f a s'
  | (Throw, s') => (Throw, s')
  | (Undefined, s') => (Undefined, s')
  end.

Definition throw {A} : M A := λ s, (Throw, s).

Notation "x <- m ;; k" := (bind m (λ x, k))
  (at level 100, m at next level, k at level 200, right associativity,
   format "'[v' x  <-  m  ;; '/' k ']'").
Notation "m ;;; k" := (bind m (λ _, k))
  (at level 100, k at level 200, right associativity,
   format "'[v' m  ;;; '/' k ']'").

Definition log (e : event) : M unit := λ s,
  (Done (), State (objects s) (heap s) (trace s ++ [e])).

(** A new-expression whose constructor has returned: the object lives at
    an address that was not in use. *)
Definition new_object (o : IObjectStored) : M loc := λ s,
  let l := fresh (dom (heap s)) in
  (Done l, State (objects s) (<[l := o]> (heap s)) (trace s)).

(** [delete p] for a non-null [p]: the destructor of the dynamic type
    runs and the storage is given back. *)
Definition delete_object (l : loc) : M unit := λ s,
  match heap s !! l with
  | Some (CObjectStored T _) =>
      (Done (), State (objects s) (delete l (heap s)) (trace s ++ [EvDestroy T]))
  | None => (Undefined, s)
  end.

(** Reading and writing the container object named [this]. *)
Definition load (this : string) : M CAnyMovable := λ s,
  match objects s !! this with
  | Some c => (Done c, s)
  | None => (Undefined, s)
  end.

Definition store (this : string) (c : CAnyMovable) : M unit := λ s,
  match objects s !! this with
  | Some _ => (Done (), State (<[this := c]> (objects s)) (heap s) (trace s))
  | None => (Undefined, s)
  end.

(** The lifetime of the container named [this] begins (its constructor
    has returned) and ends (its destructor has returned). *)
Definition begin_lifetime (this : string) (c : CAnyMovable) : M unit := λ s,
  match objects s !! this with
  | None => (Done (), State (<[this := c]> (objects s)) (heap s) (trace s))
  | Some _ => (Undefined, s)
  end.

Definition end_lifetime (this : string) : M unit := λ s,
  (Done (), State (delete this (objects s)) (heap s) (trace s)).

(** *** [std::unique_ptr<IObjectStored>] *)

(** [get()]. *)
Definition get (p : CStoredPtr) : option loc := p.

(** [explicit operator bool()]: [get() != nullptr]. *)
Definition operator_bool (p : CStoredPtr) : bool :=
  match get p with
  | Some _ => true
  | None => false
  end.

(** [release()]: the pointer that was owned, and the unique_ptr, now null. *)
Definition release (p : CStoredPtr) : option loc * CStoredPtr := (get p, None).

(** [reset(q)]: the unique_ptr takes [q], then what it owned before, if
    anything, is deleted.  The result is the unique_ptr afterwards. *)
Definition reset (p : CStoredPtr) (q : option loc) : M CStoredPtr :=
  match get p with
  | Some old => delete_object old ;;; ret q
  | None => ret q
  end.

(** [~unique_ptr()]. *)
Definition unique_ptr_dtor (p : CStoredPtr) : M unit :=
  match get p with
  | Some l => delete_object l
  | None => ret ()
  end.

(** *** Construction of the stored object *)

(** A call of one of T's constructors.  The call itself is what goes on
    the trace, whether it returns or throws: whoever constructs a T, it
    is counted where the T is constructed. *)
Definition call_construct (T : TObject) (args : TArgs T) : M (value T) :=
  log (EvConstruct T) ;;;
  match construct T args with
  | Some v => ret v
  | None => throw
  end.

Definition call_copy_construct (T : TObject) (Object : value T) : M (value T) :=
  log (EvConstruct T) ;;;
  match copy_construct T Object with
  | Some v => ret v
  | None => throw
  end.

Definition call_move_construct (T : TObject) (Object : value T) : M (value T) :=
  log (EvConstruct T) ;;;
  ret (move_construct T Object).

(** The constructors of [CObjectKeeper<TObject>], which
    [TImplementation] and [CObjectStored] inherit ([using CBase::CBase]).
    Overload resolution takes [CObjectKeeper(TObject&& Object) noexcept],
    which is [Object_(std::move(Object))], for one rvalue of type T, and
    the variadic [CObjectKeeper(TArgs&&... args)], which is
    [Object_(std::forward<TArgs>(args)...)], for every other pack: an
    lvalue of type T goes to T's copy constructor, other arguments to the
    constructor of T that takes them.  In each case the member
    initialiser is the one constructor call there is, made on [Object_]
    itself with the arguments as they came. *)
Definition CObjectKeeper_ctor (T : TObject) (a : pack T) : M (CObjectKeeper T) :=
  v <- match a with
       | RvalueOf Object => call_move_construct T Object
       | LvalueOf Object => call_copy_construct T Object
       | Args args => call_construct T args
       end ;;
  ret (Keeper v).

(** The value [Object_] is initialised with by the constructor call that
    [CObjectKeeper_ctor] makes for the pack; [None]: that call throws. *)
Definition initialise (T : TObject) (a : pack T) : option (value T) :=
  match a with
  | RvalueOf Object => Some (move_construct T Object)
  | LvalueOf Object => copy_construct T Object
  | Args args => construct T args
  end.

(** [std::make_unique<CObjectStored<T>>(args...)]: the result is the
    temporary unique_ptr that owns the new object.  When the constructor
    throws, the new-expression gives the storage back and nothing is left
    on the free store. *)
Definition make_unique (T : TObject) (a : pack T) : M CStoredPtr :=
  k <- CObjectKeeper_ctor T a ;;
  l <- new_object (CObjectStored T k) ;;
  ret (Some l).

(** *** The members of [CAnyMovable] *)

(** [CAnyMovable() = default]. *)
Definition CAnyMovable_default (this : string) : M unit :=
  begin_lifetime this (AnyMovable None).

(** [template<class T> CAnyMovable(T&& Object)], with [CObjType<T>]
    standing for the stored type [T] here. *)
Definition CAnyMovable_value (this : string) (T : TObject)
    (cat : value_category) (Object : value T) : M unit :=
  p <- make_unique T (forward cat Object) ;;
  begin_lifetime this (AnyMovable p).

(** [CAnyMovable(std::in_place_type_t<T>, TArgs&&... args)]. *)
Definition CAnyMovable_in_place (this : string) (T : TObject) (args : pack T) : M unit :=
  p <- make_unique T args ;;
  begin_lifetime this (AnyMovable p).

(** [CAnyMovable(CAnyMovable&& Other) noexcept = default]: the member is
    move-constructed, [pIObject_(Other.pIObject_.release())]. *)
Definition CAnyMovable_move (this Other : string) : M unit :=
  o <- load Other ;;
  let '(q, u) := release (pIObject_ o) in
  store Other (AnyMovable u) ;;;
  begin_lifetime this (AnyMovable q).

(** [CAnyMovable& operator=(CAnyMovable&& Other) noexcept = default]: the
    member is move-assigned, [pIObject_.reset(Other.pIObject_.release())]. *)
Definition operator_assign (this Other : string) : M unit :=
  o <- load Other ;;
  let '(q, u) := release (pIObject_ o) in
  store Other (AnyMovable u) ;;;
  c <- load this ;;
  p <- reset (pIObject_ c) q ;;
  store this (AnyMovable p).

(** [bool isDefined() const]. *)
Definition isDefined (c : CAnyMovable) : bool := operator_bool (pIObject_ c).

(** A value of type [TInterface<IEmpty>*] or [const TInterface<IEmpty>*]. *)
Record interface_ptr : Type := InterfacePtr {
  target : option loc;
  pointee_const : bool;
}.

(** Whether [p->m(...)] is well-formed: a member function that is not
    const cannot be called through a pointer to const. *)
Definition callable (p : interface_ptr) (m : Method) : bool :=
  negb (pointee_const p) || const_method m.

(** [TInterface<IEmpty>* operator->()]. *)
Definition operator_arrow (c : CAnyMovable) : interface_ptr :=
  InterfacePtr (get (pIObject_ c)) false.

(** [TInterface<IEmpty>* operator->() const]. *)
Definition operator_arrow_const (c : CAnyMovable) : interface_ptr :=
  InterfacePtr (get (pIObject_ c)) false.

(** [template<class TObject, class... TArgs> void emplace(TArgs&&... args)]:
    [pIObject_ = std::make_unique<CObjectStored<TObject>>(...)].  The
    right-hand side is evaluated to a temporary, which is then
    move-assigned to the member and destroyed, null by then, at the end
    of the statement. *)
Definition emplace (this : string) (T : TObject) (args : pack T) : M unit :=
  tmp <- make_unique T args ;;
  c <- load this ;;
  let '(q, tmp') := release tmp in
  p <- reset (pIObject_ c) q ;;
  store this (AnyMovable p) ;;;
  unique_ptr_dtor tmp'.

(** [void clear()]: [pIObject_.reset()]. *)
Definition clear (this : string) : M unit :=
  c <- load this ;;
  p <- reset (pIObject_ c) None ;;
  store this (AnyMovable p).

(** [~CAnyMovable() = default]. *)
Definition CAnyMovable_dtor (this : string) : M unit :=
  c <- load this ;;
  unique_ptr_dtor (pIObject_ c) ;;;
  end_lifetime this.

(** *** Calls through the interface *)

(** A virtual call [p->m(...)]: undefined when [p] is null or does not
    point to a live object, and otherwise the override of the dynamic
    type, run on the stored value. *)
Definition invoke (p : interface_ptr) (m : Method) : M Result := λ s,
  match target p with
  | None => (Undefined, s)
  | Some l =>
      match heap s !! l with
      | Some (CObjectStored T k) =>
          let '(r, v) := TImplementation T m (Object k) in
          (Done r, State (objects s) (<[l := CObjectStored T (Keeper v)]> (heap s)) (trace s))
      | None => (Undefined, s)
      end
  end.

(** [x->m(...)] on a container [x], and on a const container [x]. *)
Definition call (this : string) (m : Method) : M Result :=
  c <- load this ;;
  invoke (operator_arrow c) m.

Definition call_const (this : string) (m : Method) : M Result :=
  c <- load this ;;
  invoke (operator_arrow_const c) m.

Fixpoint calls (this : string) (ms : list Method) : M (list Result) :=
  match ms with
  | [] => ret []
  | m :: ms' =>
      r <- call this m ;;
      rs <- calls this ms' ;;
      ret (r :: rs)
  end.

(** The same calls made on a value of type T itself. *)
Fixpoint direct (T : TObject) (ms : list Method) (v : value T) : list Result * value T :=
  match ms with
  | [] => ([], v)
  | m :: ms' =>
      let '(r, v') := TImplementation T m v in
      let '(rs, v'') := direct T ms' v' in
      (r :: rs, v'')
  end.

(** *** Programs over containers *)

Inductive op : Type :=
  | Default (x : string)                                         (* CAny x; *)
  | FromValue (x : string) (T : TObject) (cat : value_category) (Object : value T)
                                                                 (* CAny x(Object); *)
  | InPlace (x : string) (T : TObject) (args : pack T)           (* CAny x(std::in_place_type<T>, args...); *)
  | MoveCtor (x y : string)                                      (* CAny x(std::move(y)); *)
  | MoveAssign (x y : string)                                    (* x = std::move(y); *)
  | Emplace (x : string) (T : TObject) (args : pack T)           (* x.emplace<T>(args...); *)
  | Clear (x : string)                                           (* x.clear(); *)
  | Call (x : string) (m : Method)                               (* x->m(...); *)
  | CallConst (x : string) (m : Method)                          (* std::as_const(x)->m(...); *)
  | Destroy (x : string).                                        (* x goes out of scope *)

Definition exec (o : op) : M unit :=
  match o with
  | Default x => CAnyMovable_default x
  | FromValue x T cat Object => CAnyMovable_value x T cat Object
  | InPlace x T args => CAnyMovable_in_place x T args
  | MoveCtor x y => CAnyMovable_move x y
  | MoveAssign x y => operator_assign x y
  | Emplace x T args => emplace x T args
  | Clear x => clear x
  | Call x m => call x m ;;; ret ()
  | CallConst x m => call_const x m ;;; ret ()
  | Destroy x => CAnyMovable_dtor x
  end.

(** A program: the operations run in order; one that throws is caught
    and the program goes on, undefined behaviour ends it. *)
Fixpoint run (os : list op) (s : state) : option state :=
  match os with
  | [] => Some s
  | o :: os' =>
      match exec o s with
      | (Undefined, _) => None
      | (_, s') => run os' s'
      end
  end.

(** The states a program can be in: an operation that returns or throws
    leaves a state the program goes on from. *)
Inductive reachable : state → Prop :=
  | reachable_initial : reachable initial
  | reachable_exec s o r s' :
      reachable s → exec o s = (r, s') → r ≠ Undefined → reachable s'.

(** The states of the container as the design names them. *)
Inductive container_state : Type :=
  | Empty
  | Holding (T : TObject).

(** The state of the container named [x], when it is alive and what it
    points to is. *)
Definition state_of (s : state) (x : string) : option container_state :=
  match objects s !! x with
  | None => None
  | Some c =>
      match get (pIObject_ c) with
      | None => Some Empty
      | Some l =>
          match heap s !! l with
          | Some (CObjectStored T _) => Some (Holding T)
          | None => None
          end
      end
  end.

(** Whether the container named [x] is alive and holds an object. *)
Definition defined_at (s : state) (x : string) : option bool :=
  isDefined <$> objects s !! x.

(** The container named [x] owns the object at [l]. *)
Definition owns (s : state) (x : string) (l : loc) : Prop :=
  objects s !! x = Some (AnyMovable (Some l)).

(** Exclusive ownership: what a container points to is alive, no two
    containers point to the same object, and every object on the free
    store is pointed to by a container. *)
Record exclusive (s : state) : Prop := {
  owned_alive x l : owns s x l → is_Some (heap s !! l);
  owned_once x y l : owns s x l → owns s y l → x = y;
  alive_owned l : is_Some (heap s !! l) → ∃ x, owns s x l;
}.

(** The number of constructor calls on stored values so far. *)
Definition is_construct (e : event) : bool :=
  match e with
  | EvConstruct _ => true
  | EvDestroy _ => false
  end.

Definition constructions (tr : list event) : nat :=
  length (List.filter is_construct tr).

(** The containers an operation names. *)
Definition names (o : op) : list string :=
  match o with
  | Default x | FromValue x _ _ _ | InPlace x _ _ => [x]
  | MoveCtor x y | MoveAssign x y => [x; y]
  | Emplace x _ _ | Clear x | Destroy x => [x]
  | Call x _ | CallConst x _ => [x]
  end.

(** The operation is one a program may write in this state: a
    declaration introduces a name that is not in use, every other
    container named is alive, and, the documented duty of the caller, a
    call through [operator->()] is made on a container for which
    [isDefined()] is true. *)
Definition in_scope (s : state) (o : op) : Prop :=
  match o with
  | Default x | FromValue x _ _ _ | InPlace x _ _ => objects s !! x = None
  | MoveCtor x y => objects s !! x = None ∧ is_Some (objects s !! y)
  | MoveAssign x y => is_Some (objects s !! x) ∧ is_Some (objects s !! y)
  | Emplace x _ _ | Clear x | Destroy x => is_Some (objects s !! x)
  | Call x _ | CallConst x _ => defined_at s x = Some true
  end.

(** The containers that hold an object, each with the address it holds. *)
Definition holders (s : state) : gmap string loc :=
  omap (λ c, get (pIObject_ c)) (objects s).

End Container.

Arguments Keeper {_ T} Object_.
Arguments Object_ {_ T} _.
Arguments RvalueOf {_ T} Object.
Arguments LvalueOf {_ T} Object.
Arguments Args {_ T} args.
Arguments CStoredPtr : simpl never.

(** *** A consumer to run the container on

    Two stored types, a counter and a flag, behind one interface with a
    const method [Read] and a non-const method [Bump].  A counter cannot
    be constructed from a negative number, a flag only from 0 or 1: their
    constructors throw otherwise. *)
Module Demo.

Inductive demo_type : Type := TCounter | TFlag.

Definition demo_value (T : demo_type) : Type :=
  match T with
  | TCounter => Z
  | TFlag => bool
  end.

Inductive demo_method : Type := Read | Bump.

Definition demo_construct (T : demo_type) (z : Z) : option (demo_value T) :=
  match T with
  | TCounter => if decide (z < 0)%Z then None else Some z
  | TFlag =>
      if decide (z = 0)%Z then Some false
      else if decide (z = 1)%Z then Some true
      else None
  end.

Definition demo_implementation (T : demo_type) (m : demo_method)
    : demo_value T → Z * demo_value T :=
  match T with
  | TCounter => λ v,
      match m with
      | Read => (v, v)
      | Bump => (v, (v + 1)%Z)
      end
  | TFlag => λ v,
      match m with
      | Read => (if v then 1%Z else 0%Z, v)
      | Bump => (if v then 1%Z else 0%Z, negb v)
      end
  end.

#[export] Instance demo : Consumer := {|
  TObject := demo_type;
  value := demo_value;
  TArgs := λ _, Z;
  construct := demo_construct;
  copy_construct := λ _ v, Some v;
  move_construct := λ _ v, v;
  Method := demo_method;
  Result := Z;
  const_method := λ m, match m with Read => true | Bump => false end;
  TImplementation := demo_implementation;
|}.

(** The stored objects of [Demo]. *)
Definition counter (z : Z) : IObjectStored :=
  CObjectStored TCounter (Keeper (T := TCounter) z).

Definition flag (b : bool) : IObjectStored :=
  CObjectStored TFlag (Keeper (T := TFlag) b).

(** The argument pack that is one number. *)
Definition number (T : demo_type) (z : Z) : pack T := Args (T := T) z.

(** [CAny x(std::in_place_type<Counter>, 5); CAny y;] *)
Definition program : list op :=
  [InPlace "x" TCounter (number TCounter 5); Default "y"].

Definition after_program : state := default initial (run program initial).

End Demo.

(** *** Facts *)

#[local] Set Warnings "-clear-no-such-hyp".

Section Facts.
Context `{Consumer}.
Implicit Types (s : state) (x y : string) (l old : loc) (c : CAnyMovable).

Lemma state_eta s : State (objects s) (heap s) (trace s) = s.
Proof. by destruct s. Qed.

Lemma fresh_heap (h : gmap loc IObjectStored) : h !! fresh (dom h) = None.
Proof. apply not_elem_of_dom, is_fresh. Qed.

Lemma make_unique_done s T a v :
  initialise T a = Some v →
  make_unique T a s =
    (Done (Some (fresh (dom (heap s)))),
     State (objects s) (<[fresh (dom (heap s)) := CObjectStored T (Keeper v)]> (heap s))
           (trace s ++ [EvConstruct T])).
Proof.
  intros Hv.
  unfold make_unique, CObjectKeeper_ctor, call_construct, call_copy_construct,
    call_move_construct, bind, log, new_object, ret.
  destruct a; simpl in *; simplify_eq; by rewrite ?Hv.
Qed.

Lemma make_unique_throw s T a :
  initialise T a = None →
  make_unique T a s = (Throw, State (objects s) (heap s) (trace s ++ [EvConstruct T])).
Proof.
  intros Hv.
  unfold make_unique, CObjectKeeper_ctor, call_construct, call_copy_construct,
    call_move_construct, bind, log, new_object, ret.
  destruct a; simpl in *; simplify_eq; by rewrite ?Hv.
Qed.

(** Exclusive ownership is kept by each change of state an operation
    makes; the trace plays no part in it. *)

Lemma exclusive_trace objs h t t' :
  exclusive (State objs h t) → exclusive (State objs h t').
Proof. intros [E1 E2 E3]. split; [exact E1 | exact E2 | exact E3]. Qed.

Lemma exclusive_null objs h t t' x :
  exclusive (State objs h t) →
  objs !! x = None ∨ objs !! x = Some (AnyMovable None) →
  exclusive (State (<[x := AnyMovable None]> objs) h t').
Proof.
  intros [E1 E2 E3] Hx. split; unfold owns in *; simpl in *.
  - intros y l. rewrite lookup_insert_Some. naive_solver.
  - intros y z l. rewrite !lookup_insert_Some. naive_solver.
  - intros l Hl. destruct (E3 l Hl) as [y Hy]. exists y.
    rewrite lookup_insert_Some. destruct (decide (x = y)); naive_solver.
Qed.

Lemma exclusive_alloc objs h t t' x l o :
  exclusive (State objs h t) →
  objs !! x = None ∨ objs !! x = Some (AnyMovable None) →
  h !! l = None →
  exclusive (State (<[x := AnyMovable (Some l)]> objs) (<[l := o]> h) t').
Proof.
  intros [E1 E2 E3] Hx Hl. split; unfold owns in *; simpl in *.
  - intros y l'. rewrite lookup_insert_Some, lookup_insert_is_Some.
    destruct (decide (l = l')); [by left|right]. naive_solver.
  - intros y z l'. rewrite !lookup_insert_Some.
    intros [[-> [= <-]]|[? Hy]] [[-> ?]|[? Hz]]; simplify_eq; try done.
    + apply E1 in Hz as [? ?]; congruence.
    + apply E1 in Hy as [? ?]; congruence.
    + eauto.
  - intros l'. rewrite lookup_insert_is_Some. intros [<-|[? Hl']].
    + exists x. by rewrite lookup_insert_eq.
    + destruct (E3 l' Hl') as [y Hy]. exists y.
      rewrite lookup_insert_ne; [done|]. naive_solver.
Qed.

Lemma exclusive_release objs h t t' x l :
  exclusive (State objs h t) →
  objs !! x = Some (AnyMovable (Some l)) →
  exclusive (State (<[x := AnyMovable None]> objs) (delete l h) t').
Proof.
  intros [E1 E2 E3] Hx. split; unfold owns in *; simpl in *.
  - intros y l'. rewrite lookup_insert_Some, lookup_delete_is_Some.
    intros [[_ [=]]|[? Hy]]. split; [|eauto]. intros <-. eauto.
  - intros y z l'. rewrite !lookup_insert_Some. naive_solver.
  - intros l'. rewrite lookup_delete_is_Some. intros [? Hl'].
    destruct (E3 l' Hl') as [y Hy]. exists y.
    rewrite lookup_insert_ne; [done|]. congruence.
Qed.

Lemma exclusive_transfer objs h t t' x y l :
  exclusive (State objs h t) →
  objs !! y = Some (AnyMovable (Some l)) →
  x ≠ y →
  objs !! x = None ∨ objs !! x = Some (AnyMovable None) →
  exclusive (State (<[x := AnyMovable (Some l)]> (<[y := AnyMovable None]> objs)) h t').
Proof.
  intros [E1 E2 E3] Hy Hxy Hx. split; unfold owns in *; simpl in *.
  - intros z l'. rewrite !lookup_insert_Some. naive_solver.
  - intros z z' l'. rewrite !lookup_insert_Some. naive_solver.
  - intros l' Hl'. destruct (E3 l' Hl') as [z Hz].
    destruct (decide (z = y)) as [->|?].
    + exists x. rewrite lookup_insert_eq. congruence.
    + exists z. rewrite !lookup_insert_ne; [done|done|]. naive_solver.
Qed.

Lemma exclusive_update objs h t t' l o :
  exclusive (State objs h t) →
  is_Some (h !! l) →
  exclusive (State objs (<[l := o]> h) t').
Proof.
  intros [E1 E2 E3] Hl. split; unfold owns in *; simpl in *.
  - intros y l' Hy. rewrite lookup_insert_is_Some. destruct (decide (l = l')); eauto.
  - exact E2.
  - intros l'. rewrite lookup_insert_is_Some. intros [<-|[? ?]]; eauto.
Qed.

Lemma exclusive_remove objs h t t' x :
  exclusive (State objs h t) →
  objs !! x = Some (AnyMovable None) →
  exclusive (State (delete x objs) h t').
Proof.
  intros [E1 E2 E3] Hx. split; unfold owns in *; simpl in *.
  - intros y l. rewrite lookup_delete_Some. naive_solver.
  - intros y z l. rewrite !lookup_delete_Some. naive_solver.
  - intros l Hl. destruct (E3 l Hl) as [y Hy]. exists y.
    rewrite lookup_delete_Some. split; [congruence|done].
Qed.

Lemma exclusive_initial : exclusive initial.
Proof.
  split; unfold owns; simpl.
  - intros x l. by rewrite lookup_empty.
  - intros x y l. by rewrite lookup_empty.
  - intros l. rewrite lookup_empty. by intros [? ?].
Qed.

(** Running an operation by hand in a hypothesis: the members are
    unfolded and the innermost test is split, again and again. *)
Ltac case_inner H :=
  match type of H with
  | context [match ?x with _ => _ end] =>
      lazymatch x with
      | context [match _ with _ => _ end] => fail
      | _ => destruct x eqn:?
      end
  end.

Ltac symbolic H :=
  repeat (unfold bind, ret, throw, load, store, begin_lifetime,
            end_lifetime, log, delete_object, release, reset, unique_ptr_dtor,
            get in H;
          simpl in H;
          rewrite ?lookup_insert_eq in H;
          rewrite ?lookup_insert_ne in H by done;
          try case_inner H;
          simplify_eq/=).

Lemma insert_shadow (objs : gmap string CAnyMovable) x y a b c :
  x ≠ y →
  <[x := a]> (<[y := c]> (<[x := b]> objs)) = <[x := a]> (<[y := c]> objs).
Proof.
  intros Hxy. rewrite (insert_insert_ne _ y x) by done.
  by rewrite insert_insert_eq.
Qed.

Lemma exclusive_assign objs h t t' x y q :
  exclusive (State objs h t) →
  x ≠ y →
  objs !! y = Some (AnyMovable q) →
  objs !! x = None ∨ objs !! x = Some (AnyMovable None) →
  exclusive (State (<[x := AnyMovable q]> (<[y := AnyMovable None]> objs)) h t').
Proof.
  intros Hex Hxy Hy Hx. destruct q as [l|].
  - by apply exclusive_transfer with t.
  - apply exclusive_null with t; [apply exclusive_null with t; auto|].
    rewrite lookup_insert_ne by done. done.
Qed.

Ltac break_containers :=
  repeat match goal with c : CAnyMovable |- _ => destruct c end; simplify_eq/=.

Lemma exec_exclusive o s r s' :
  exclusive s → exec o s = (r, s') → r ≠ Undefined → exclusive s'.
Proof.
  intros Hex Hexec Hr. destruct s as [objs h t].
  destruct o as [x|x T cat v|x T a|x y|x y|x T a|x|x m|x m|x]; simpl in Hexec.
  - unfold CAnyMovable_default in Hexec. symbolic Hexec; try done.
    apply exclusive_null with t; eauto.
  - unfold CAnyMovable_value, bind in Hexec.
    destruct (initialise T (forward cat v)) as [w|] eqn:Hc.
    + rewrite (make_unique_done _ _ _ _ Hc) in Hexec.
      symbolic Hexec; try done.
      apply exclusive_alloc with t; eauto using fresh_heap.
    + rewrite (make_unique_throw _ _ _ Hc) in Hexec. simplify_eq.
      by apply exclusive_trace with t.
  - unfold CAnyMovable_in_place, bind in Hexec.
    destruct (initialise T a) as [w|] eqn:Hc.
    + rewrite (make_unique_done _ _ _ _ Hc) in Hexec.
      symbolic Hexec; try done.
      apply exclusive_alloc with t; eauto using fresh_heap.
    + rewrite (make_unique_throw _ _ _ Hc) in Hexec. simplify_eq.
      by apply exclusive_trace with t.
  - unfold CAnyMovable_move in Hexec.
    destruct (decide (x = y)) as [->|Hxy]; symbolic Hexec; try done.
    break_containers. apply exclusive_assign with t; eauto.
  - unfold operator_assign in Hexec.
    destruct (decide (x = y)) as [->|Hxy]; symbolic Hexec; try done.
    + break_containers. by rewrite insert_insert_eq, insert_id.
    + break_containers.
      rewrite <-(insert_shadow objs x y _ (AnyMovable None)) by done.
      apply exclusive_assign with t; try done.
      * apply exclusive_release with t; eauto.
      * by rewrite lookup_insert_ne.
      * right. by rewrite lookup_insert_eq.
    + break_containers. apply exclusive_assign with t; eauto.
  - unfold emplace, bind in Hexec.
    destruct (initialise T a) as [w|] eqn:Hc.
    + rewrite (make_unique_done _ _ _ _ Hc) in Hexec.
      pose proof (fresh_heap h) as Hl. simpl in Hexec.
      set (l := fresh (dom h)) in *. clearbody l.
      destruct (objs !! x) as [[[old|]]|] eqn:Hx.
      * assert (is_Some (h !! old)) as Hold by (by apply (owned_alive _ Hex x)).
        assert (l ≠ old) by (intros <-; rewrite Hl in Hold; by destruct Hold).
        symbolic Hexec; try done.
        rewrite delete_insert_ne by done.
        rewrite <-(insert_insert_eq objs x _ (AnyMovable None)).
        apply exclusive_alloc with t.
        -- apply exclusive_release with t; eauto.
        -- right. by rewrite lookup_insert_eq.
        -- by rewrite lookup_delete_ne.
      * symbolic Hexec; try done.
        apply exclusive_alloc with t; eauto.
      * symbolic Hexec; done.
    + rewrite (make_unique_throw _ _ _ Hc) in Hexec. simplify_eq.
      by apply exclusive_trace with t.
  - unfold clear in Hexec. symbolic Hexec; try done; break_containers.
    + apply exclusive_release with t; eauto.
    + apply exclusive_null with t; eauto.
  - unfold call, invoke, operator_arrow in Hexec. symbolic Hexec; try done.
    apply exclusive_update with t; eauto.
  - unfold call_const, invoke, operator_arrow_const in Hexec. symbolic Hexec; try done.
    apply exclusive_update with t; eauto.
  - unfold CAnyMovable_dtor in Hexec. symbolic Hexec; try done; break_containers.
    + rewrite <-(delete_insert_eq objs x (AnyMovable None)).
      apply exclusive_remove with t; [|by rewrite lookup_insert_eq].
      apply exclusive_release with t; eauto.
    + by apply exclusive_remove with t.
Qed.

Lemma reachable_exclusive s : reachable s → exclusive s.
Proof.
  induction 1 as [|s o r s' _ IH Hexec Hr].
  - apply exclusive_initial.
  - by eapply exec_exclusive.
Qed.

Lemma run_reachable os s s' : reachable s → run os s = Some s' → reachable s'.
Proof.
  revert s. induction os as [|o os IH]; intros s Hs Hrun; simpl in Hrun.
  - by simplify_eq.
  - destruct (exec o s) as [r s1] eqn:Hexec.
    destruct r; try done; (apply (IH s1); [|done]); by eapply reachable_exec.
Qed.

(** What the member functions do, case by case. *)

Ltac unfold_members :=
  unfold CAnyMovable_default, CAnyMovable_value, CAnyMovable_in_place,
    CAnyMovable_move, operator_assign, emplace, clear, CAnyMovable_dtor,
    call, call_const, invoke, operator_arrow, operator_arrow_const,
    bind, ret, throw, load, store, begin_lifetime,
    end_lifetime, log, delete_object, release, reset, unique_ptr_dtor, get.

Ltac steps :=
  repeat (unfold_members; simpl;
          rewrite ?lookup_insert_eq;
          rewrite ?lookup_insert_ne by done;
          repeat match goal with
                 | Hh : _ !! _ = _ |- _ => rewrite Hh
                 end).

Lemma emplace_throw s x T (a : pack T) :
  initialise T a = None →
  emplace x T a s = (Throw, State (objects s) (heap s) (trace s ++ [EvConstruct T])).
Proof. intros Hc. unfold emplace, bind. by rewrite (make_unique_throw _ _ _ Hc). Qed.

Lemma emplace_empty s x T (a : pack T) v :
  objects s !! x = Some (AnyMovable None) →
  initialise T a = Some v →
  emplace x T a s =
    (Done (),
     State (<[x := AnyMovable (Some (fresh (dom (heap s))))]> (objects s))
           (<[fresh (dom (heap s)) := CObjectStored T (Keeper v)]> (heap s))
           (trace s ++ [EvConstruct T])).
Proof.
  intros Hx Hc. unfold emplace, bind. rewrite (make_unique_done _ _ _ _ Hc).
  destruct s as [objs h t]; simpl in *. by steps.
Qed.

Lemma emplace_holding s x old U k T (a : pack T) v :
  owns s x old →
  heap s !! old = Some (CObjectStored U k) →
  initialise T a = Some v →
  emplace x T a s =
    (Done (),
     State (<[x := AnyMovable (Some (fresh (dom (heap s))))]> (objects s))
           (delete old (<[fresh (dom (heap s)) := CObjectStored T (Keeper v)]> (heap s)))
           (trace s ++ [EvConstruct T; EvDestroy U])).
Proof.
  unfold owns. intros Hx Hold Hc.
  unfold emplace, bind. rewrite (make_unique_done _ _ _ _ Hc).
  assert (fresh (dom (heap s)) ≠ old) as Hne.
  { intros Heq. rewrite <-Heq, fresh_heap in Hold. done. }
  destruct s as [objs h t]; simpl in *. steps. by rewrite <-app_assoc.
Qed.

Lemma clear_empty s x :
  objects s !! x = Some (AnyMovable None) → clear x s = (Done (), s).
Proof.
  intros Hx. destruct s as [objs h t]; simpl in *. steps. by rewrite insert_id.
Qed.

Lemma clear_holding s x old U k :
  owns s x old →
  heap s !! old = Some (CObjectStored U k) →
  clear x s =
    (Done (),
     State (<[x := AnyMovable None]> (objects s)) (delete old (heap s))
           (trace s ++ [EvDestroy U])).
Proof. unfold owns. intros Hx Hold. destruct s as [objs h t]; simpl in *. by steps. Qed.

Lemma call_holding s x l T k m :
  owns s x l →
  heap s !! l = Some (CObjectStored T k) →
  call x m s =
    (Done (TImplementation T m (Object k)).1,
     State (objects s)
           (<[l := CObjectStored T (Keeper (TImplementation T m (Object k)).2)]> (heap s))
           (trace s)).
Proof.
  unfold owns. intros Hx Hl. destruct s as [objs h t]; simpl in *. steps.
  by destruct (TImplementation T m (Object k)).
Qed.

Lemma call_empty s x m :
  objects s !! x = Some (AnyMovable None) → call x m s = (Undefined, s).
Proof. intros Hx. destruct s as [objs h t]; simpl in *. by steps. Qed.

Lemma calls_holding s x l T k ms :
  owns s x l →
  heap s !! l = Some (CObjectStored T k) →
  calls x ms s =
    (Done (direct T ms (Object k)).1,
     State (objects s)
           (<[l := CObjectStored T (Keeper (direct T ms (Object k)).2)]> (heap s))
           (trace s)).
Proof.
  revert s k. induction ms as [|m ms IH]; intros s k Hx Hl; simpl.
  - unfold ret. destruct k as [v]. simpl.
    by rewrite insert_id, state_eta.
  - unfold bind at 1. rewrite (call_holding _ _ _ _ _ _ Hx Hl).
    destruct (TImplementation T m (Object k)) as [r v] eqn:Hm. simpl.
    unfold bind at 1. erewrite IH; [|done|by apply lookup_insert_eq].
    simpl. destruct (direct T ms v) as [rs v'] eqn:Hd. simpl.
    unfold ret. by rewrite insert_insert_eq.
Qed.

Lemma move_done s x y q :
  objects s !! y = Some (AnyMovable q) →
  objects s !! x = None →
  CAnyMovable_move x y s =
    (Done (),
     State (<[x := AnyMovable q]> (<[y := AnyMovable None]> (objects s)))
           (heap s) (trace s)).
Proof.
  intros Hy Hx. assert (y ≠ x) by congruence.
  destruct s as [objs h t]; simpl in *. by steps.
Qed.

Lemma assign_empty s x y q :
  x ≠ y →
  objects s !! y = Some (AnyMovable q) →
  objects s !! x = Some (AnyMovable None) →
  operator_assign x y s =
    (Done (),
     State (<[x := AnyMovable q]> (<[y := AnyMovable None]> (objects s)))
           (heap s) (trace s)).
Proof. intros Hxy Hy Hx. destruct s as [objs h t]; simpl in *. by steps. Qed.

Lemma assign_holding s x y q old U k :
  x ≠ y →
  objects s !! y = Some (AnyMovable q) →
  owns s x old →
  heap s !! old = Some (CObjectStored U k) →
  operator_assign x y s =
    (Done (),
     State (<[x := AnyMovable q]> (<[y := AnyMovable None]> (objects s)))
           (delete old (heap s)) (trace s ++ [EvDestroy U])).
Proof.
  unfold owns. intros Hxy Hy Hx Hold.
  destruct s as [objs h t]; simpl in *. by steps.
Qed.

Lemma assign_self s x c :
  objects s !! x = Some c → operator_assign x x s = (Done (), s).
Proof.
  intros Hx. destruct c as [q]. destruct s as [objs h t]; simpl in *. steps.
  by rewrite insert_insert_eq, insert_id.
Qed.

Lemma constructions_app (t t' : list event) :
  constructions (t ++ t') = constructions t + constructions t'.
Proof. unfold constructions. by rewrite List.filter_app, length_app. Qed.

Lemma constructions_snoc_construct (t : list event) T :
  constructions (t ++ [EvConstruct T]) = S (constructions t).
Proof. rewrite constructions_app. unfold constructions. simpl. lia. Qed.

Lemma constructions_snoc_destroy (t : list event) T :
  constructions (t ++ [EvDestroy T]) = constructions t.
Proof. rewrite constructions_app. unfold constructions. simpl. lia. Qed.

Lemma defined_at_insert objs h t x q :
  defined_at (State (<[x := AnyMovable q]> objs) h t) x = Some (bool_decide (q ≠ None)).
Proof.
  unfold defined_at. simpl. rewrite lookup_insert_eq. simpl.
  unfold isDefined, operator_bool, get. simpl. by destruct q.
Qed.

(** C1, as amended.  On a container that holds an object, [emplace]
    constructs the new value first and releases the object held before
    only once that construction has succeeded.  So when the constructor
    of T throws, the container still holds the previous object, untouched;
    when it returns, the previous object is destroyed after the new one
    was constructed, and the container holds the new one. *)
Theorem emplace_constructs_before_release s x old U k T (a : pack T) :
  owns s x old →
  heap s !! old = Some (CObjectStored U k) →
  (initialise T a = None →
     ∃ s', emplace x T a s = (Throw, s')
       ∧ objects s' = objects s
       ∧ heap s' = heap s
       ∧ defined_at s' x = Some true
       ∧ trace s' = trace s ++ [EvConstruct T])
  ∧ (∀ v, initialise T a = Some v →
     ∃ l s', emplace x T a s = (Done (), s')
       ∧ owns s' x l
       ∧ heap s' !! l = Some (CObjectStored T (Keeper v))
       ∧ heap s' !! old = None
       ∧ trace s' = trace s ++ [EvConstruct T; EvDestroy U]).
Proof.
  intros Hx Hold. split.
  - intros Hc. eexists. split; [by apply emplace_throw|]. simpl.
    repeat split. unfold defined_at. simpl. by rewrite Hx.
  - intros v Hc. eexists _, _. split; [by eapply emplace_holding|]. simpl.
    assert (fresh (dom (heap s)) ≠ old) as Hne.
    { intros Heq. rewrite <-Heq, fresh_heap in Hold. done. }
    repeat split.
    + unfold owns. simpl. by rewrite lookup_insert_eq.
    + by rewrite lookup_delete_ne, lookup_insert_eq.
    + by rewrite lookup_delete_eq.
Qed.

(** C3.  Tagged in-place construction and [emplace<T>(args...)] make
    one constructor call on a stored value, the call of T's constructor
    on the arguments as they were passed (for one rvalue or lvalue of
    type T, of its move or copy constructor on that argument): the trace
    gains that one construction and no other.  What the call returns is,
    as it is, the object the container holds afterwards, and no other
    object comes to exist; when the call throws there is no new object at
    all. *)
Theorem in_place_constructs_once s x T (a : pack T) :
  let made : option (value T) :=
    match a with
    | RvalueOf Object => Some (move_construct T Object)
    | LvalueOf Object => copy_construct T Object
    | Args args => construct T args
    end in
  (objects s !! x = None →
     ∃ r s', CAnyMovable_in_place x T a s = (r, s')
       ∧ trace s' = trace s ++ [EvConstruct T]
       ∧ constructions (trace s') = S (constructions (trace s))
       ∧ match made with
         | Some v =>
             r = Done ()
             ∧ ∃ l, heap s !! l = None ∧ owns s' x l
                 ∧ heap s' = <[l := CObjectStored T (Keeper v)]> (heap s)
         | None => r = Throw ∧ heap s' = heap s ∧ objects s' = objects s
         end)
  ∧ (∀ c, objects s !! x = Some c →
     (∀ old, pIObject_ c = Some old → is_Some (heap s !! old)) →
     ∃ r s' rest, emplace x T a s = (r, s')
       ∧ trace s' = trace s ++ EvConstruct T :: rest
       ∧ constructions rest = 0
       ∧ constructions (trace s') = S (constructions (trace s))
       ∧ match made with
         | Some v =>
             r = Done ()
             ∧ ∃ l, heap s !! l = None ∧ owns s' x l
                 ∧ heap s' !! l = Some (CObjectStored T (Keeper v))
                 ∧ ∀ l', is_Some (heap s' !! l') → l' = l ∨ is_Some (heap s !! l')
         | None => r = Throw ∧ heap s' = heap s ∧ objects s' = objects s
         end).
Proof.
  intros made. change made with (initialise T a). clear made. split.
  - intros Hx. unfold CAnyMovable_in_place, bind.
    destruct (initialise T a) as [v|] eqn:Hc.
    + rewrite (make_unique_done _ _ _ _ Hc). unfold begin_lifetime. simpl.
      rewrite Hx. eexists _, _. split; [done|]. simpl.
      split; [done|]. split; [apply constructions_snoc_construct|].
      split; [done|]. exists (fresh (dom (heap s))).
      split; [apply fresh_heap|]. split; [|done].
      unfold owns. simpl. by rewrite lookup_insert_eq.
    + rewrite (make_unique_throw _ _ _ Hc). eexists _, _. split; [done|]. simpl.
      split; [done|]. split; [apply constructions_snoc_construct|]. done.
  - intros [[old|]] Hx Halive.
    + destruct (Halive old eq_refl) as [[U k] Hold].
      destruct (initialise T a) as [v|] eqn:Hc.
      * eexists _, _, [EvDestroy U]. split; [by eapply emplace_holding|]. simpl.
        assert (fresh (dom (heap s)) ≠ old) as Hne.
        { intros Heq. rewrite <-Heq, fresh_heap in Hold. done. }
        split; [done|]. split; [done|]. split.
        { rewrite (constructions_app _ [_; _]). unfold constructions. simpl. lia. }
        split; [done|]. exists (fresh (dom (heap s))).
        split; [apply fresh_heap|]. split.
        { unfold owns. simpl. by rewrite lookup_insert_eq. }
        split.
        { by rewrite lookup_delete_ne, lookup_insert_eq. }
        intros l'. rewrite lookup_delete_is_Some, lookup_insert_is_Some.
        intros [_ [->|[_ ?]]]; auto.
      * eexists _, _, []. split; [by apply emplace_throw|]. simpl.
        split; [done|]. split; [done|].
        split; [apply constructions_snoc_construct|]. done.
    + destruct (initialise T a) as [v|] eqn:Hc.
      * eexists _, _, []. split; [by eapply emplace_empty|]. simpl.
        split; [done|]. split; [done|].
        split; [apply constructions_snoc_construct|].
        split; [done|]. exists (fresh (dom (heap s))).
        split; [apply fresh_heap|]. split.
        { unfold owns. simpl. by rewrite lookup_insert_eq. }
        split.
        { by rewrite lookup_insert_eq. }
        intros l'. rewrite lookup_insert_is_Some.
        intros [->|[_ ?]]; auto.
      * eexists _, _, []. split; [by apply emplace_throw|]. simpl.
        split; [done|]. split; [done|].
        split; [apply constructions_snoc_construct|]. done.
Qed.

Lemma calls_same_object s1 s2 x y l ms :
  owns s1 x l → owns s2 y l → heap s1 !! l = heap s2 !! l →
  (calls x ms s1).1 = (calls y ms s2).1.
Proof.
  intros Hx Hy Hl. destruct (heap s2 !! l) as [[T k]|] eqn:Hl2.
  - by rewrite (calls_holding s1 x l T k), (calls_holding s2 y l T k).
  - destruct ms as [|m ms]; [done|]. simpl.
    unfold owns in *. destruct s1 as [o1 h1 t1], s2 as [o2 h2 t2]; simpl in *.
    by steps.
Qed.

(** C5.  Moving a container that holds an object into another one, by
    move construction or by move assignment, hands over the one pointer:
    afterwards the source is empty, the destination holds the very object
    the source held, which was neither copied nor constructed anew, and
    calls through the destination give what they would have given through
    the source. *)
Theorem move_transfers_ownership s x y l :
  reachable s →
  owns s y l →
  x ≠ y →
  (objects s !! x = None →
     ∃ s', CAnyMovable_move x y s = (Done (), s')
       ∧ defined_at s' y = Some false
       ∧ defined_at s' x = Some true
       ∧ owns s' x l
       ∧ heap s' = heap s
       ∧ trace s' = trace s
       ∧ ∀ ms, (calls x ms s').1 = (calls y ms s).1)
  ∧ (is_Some (objects s !! x) →
     ∃ s', operator_assign x y s = (Done (), s')
       ∧ defined_at s' y = Some false
       ∧ defined_at s' x = Some true
       ∧ owns s' x l
       ∧ heap s' !! l = heap s !! l
       ∧ (∀ l', is_Some (heap s' !! l') → is_Some (heap s !! l'))
       ∧ constructions (trace s') = constructions (trace s)
       ∧ ∀ ms, (calls x ms s').1 = (calls y ms s).1).
Proof.
  intros Hreach Hy Hxy. pose proof (reachable_exclusive _ Hreach) as Hex.
  assert (∀ objs h t, defined_at (State (<[x := AnyMovable (Some l)]> (<[y := AnyMovable None]> objs)) h t) y = Some false) as Hsrc.
  { intros. unfold defined_at. simpl. by rewrite lookup_insert_ne, lookup_insert_eq. }
  split.
  - intros Hx. eexists. split; [by eapply move_done|].
    split; [apply Hsrc|]. split; [by rewrite defined_at_insert|].
    split; [unfold owns; simpl; by rewrite lookup_insert_eq|].
    split; [done|]. split; [done|]. intros ms.
    apply calls_same_object with l; [|done|done].
    unfold owns. simpl. by rewrite lookup_insert_eq.
  - intros [[[old|]] Hx].
    + destruct (owned_alive _ Hex x old Hx) as [[U k] Hold].
      assert (old ≠ l) as Hne.
      { intros ->. by specialize (owned_once _ Hex x y l Hx Hy). }
      eexists. split; [by eapply assign_holding|].
      split; [apply Hsrc|]. split; [by rewrite defined_at_insert|].
      split; [unfold owns; simpl; by rewrite lookup_insert_eq|]. simpl.
      split; [by rewrite lookup_delete_ne|].
      split; [intros l'; rewrite lookup_delete_is_Some; tauto|].
      split; [apply constructions_snoc_destroy|]. intros ms.
      apply calls_same_object with l; [|done|].
      * unfold owns. simpl. by rewrite lookup_insert_eq.
      * simpl. by rewrite lookup_delete_ne.
    + eexists. split; [by eapply assign_empty|].
      split; [apply Hsrc|]. split; [by rewrite defined_at_insert|].
      split; [unfold owns; simpl; by rewrite lookup_insert_eq|]. simpl.
      split; [done|]. split; [done|]. split; [done|]. intros ms.
      apply calls_same_object with l; [|done|done].
      unfold owns. simpl. by rewrite lookup_insert_eq.
Qed.

(** C6.  After construction from a value [V] (whose move constructor, for
    an rvalue, or copy constructor, for an lvalue, gives the stored object
    the value [V]), [isDefined()] is true, and any calls made through the
    container return what the same calls of the implementation return on
    [V] itself and leave the stored value as they leave [V]. *)
Theorem value_ctor_dispatch s x T cat (V : value T) :
  objects s !! x = None →
  initialise T (forward cat V) = Some V →
  ∃ s' l, CAnyMovable_value x T cat V s = (Done (), s')
    ∧ defined_at s' x = Some true
    ∧ owns s' x l
    ∧ heap s' !! l = Some (CObjectStored T (Keeper V))
    ∧ ∀ ms, ∃ s'', calls x ms s' = (Done (direct T ms V).1, s'')
        ∧ owns s'' x l
        ∧ heap s'' !! l = Some (CObjectStored T (Keeper (direct T ms V).2)).
Proof.
  intros Hx Hc. unfold CAnyMovable_value, bind.
  rewrite (make_unique_done _ _ _ _ Hc). unfold begin_lifetime. simpl. rewrite Hx.
  eexists _, (fresh (dom (heap s))). split; [done|].
  split; [by rewrite defined_at_insert|].
  assert (∀ h t, owns (State (<[x := AnyMovable (Some (fresh (dom (heap s))))]> (objects s)) h t) x (fresh (dom (heap s)))) as Hown.
  { intros. unfold owns. simpl. by rewrite lookup_insert_eq. }
  split; [apply Hown|]. simpl. split; [by rewrite lookup_insert_eq|].
  intros ms. eexists. split.
  - rewrite (calls_holding _ x (fresh (dom (heap s))) T (Keeper V)); [done|apply Hown|].
    simpl. by rewrite lookup_insert_eq.
  - simpl. split; [apply Hown|]. by rewrite lookup_insert_eq.
Qed.

(** C7.  [clear()] leaves the container empty; on a container that is
    empty already it changes nothing at all, and clearing a second time
    changes nothing either. *)
Theorem clear_empties_and_is_idempotent s x c :
  reachable s →
  objects s !! x = Some c →
  ∃ s', clear x s = (Done (), s')
    ∧ defined_at s' x = Some false
    ∧ (isDefined c = false → s' = s)
    ∧ clear x s' = (Done (), s').
Proof.
  intros Hreach Hx. pose proof (reachable_exclusive _ Hreach) as Hex.
  destruct c as [[old|]].
  - destruct (owned_alive _ Hex x old Hx) as [[U k] Hold].
    eexists. split; [by eapply clear_holding|].
    split; [by rewrite defined_at_insert|]. split; [done|].
    apply clear_empty. simpl. by rewrite lookup_insert_eq.
  - exists s. split; [by apply clear_empty|].
    split; [unfold defined_at; by rewrite Hx|]. split; [done|].
    by apply clear_empty.
Qed.

(** C9.  [operator->()] returns the pointer the member [pIObject_]
    owns, so it returns the null pointer exactly when the container is
    empty.  On a container that holds an object, [isDefined()] is true
    and the pointer returned is the address of that very object, alive on
    the free store, so that a call through it runs the override of the
    object's type on the stored value; whenever [isDefined()] is true the
    container does hold an object.  On an empty container it returns
    [nullptr], and a call through it is undefined. *)
Theorem arrow_null_iff_empty s x c :
  reachable s →
  objects s !! x = Some c →
  target (operator_arrow c) = pIObject_ c
  ∧ (target (operator_arrow c) = None ↔ state_of s x = Some Empty)
  ∧ (target (operator_arrow c) = None ↔ isDefined c = false)
  ∧ (∀ l, owns s x l →
       isDefined c = true
       ∧ target (operator_arrow c) = Some l
       ∧ ∃ T k, heap s !! l = Some (CObjectStored T k)
           ∧ state_of s x = Some (Holding T)
           ∧ ∀ m, call x m s =
               (Done (TImplementation T m (Object k)).1,
                State (objects s)
                      (<[l := CObjectStored T (Keeper (TImplementation T m (Object k)).2)]>
                         (heap s))
                      (trace s)))
  ∧ (isDefined c = true → ∃ l, owns s x l)
  ∧ (isDefined c = false →
       pIObject_ c = None
       ∧ target (operator_arrow c) = None
       ∧ ∀ m, call x m s = (Undefined, s)).
Proof.
  intros Hreach Hx. pose proof (reachable_exclusive _ Hreach) as Hex.
  split; [done|].
  destruct c as [[l|]]; unfold isDefined, operator_bool, operator_arrow, get; simpl.
  - destruct (owned_alive _ Hex x l Hx) as [[T k] Hl].
    assert (state_of s x = Some (Holding T)) as Hstate.
    { unfold state_of. rewrite Hx. simpl. unfold get. by rewrite Hl. }
    split; [rewrite Hstate; split; discriminate|].
    split; [split; discriminate|]. split.
    + intros l' Hl'. unfold owns in Hl'. rewrite Hx in Hl'. simplify_eq.
      split; [done|]. split; [done|]. exists T, k.
      split; [done|]. split; [done|]. intros m. by apply call_holding.
    + split; [intros _; by exists l|discriminate].
  - assert (state_of s x = Some Empty) as Hstate.
    { unfold state_of. by rewrite Hx. }
    split; [by rewrite Hstate|]. split; [done|]. split.
    + intros l Hl. unfold owns in Hl. rewrite Hx in Hl. discriminate.
    + split; [discriminate|]. intros _. split; [done|]. split; [done|].
      intros m. by apply call_empty.
Qed.

(** C10.  The const overload of [operator->()] returns the same pointer
    as the non-const overload, and a pointer to non-const: a call through
    a const container is the call through the container, and a method
    that changes the stored value changes it just the same. *)
Theorem const_arrow_grants_mutation c :
  operator_arrow_const c = operator_arrow c
  ∧ pointee_const (operator_arrow_const c) = false
  ∧ (∀ m, callable (operator_arrow_const c) m = true)
  ∧ ∀ s x l T k m,
      objects s !! x = Some c →
      pIObject_ c = Some l →
      heap s !! l = Some (CObjectStored T k) →
      call_const x m s = call x m s
      ∧ call_const x m s =
          (Done (TImplementation T m (Object k)).1,
           State (objects s)
                 (<[l := CObjectStored T (Keeper (TImplementation T m (Object k)).2)]> (heap s))
                 (trace s)).
Proof.
  split; [done|]. split; [done|]. split; [done|].
  intros s x l T k m Hx Hc Hl. split; [done|].
  change (call_const x m s) with (call x m s).
  apply call_holding; [|done]. unfold owns. rewrite Hx. destruct c. simpl in Hc. by subst.
Qed.

Lemma state_of_alive s x c :
  exclusive s →
  objects s !! x = Some c →
  state_of s x = Some Empty ∨ ∃ T, state_of s x = Some (Holding T).
Proof.
  intros Hex Hx. unfold state_of. rewrite Hx. destruct c as [[l|]]; simpl.
  - destruct (owned_alive _ Hex x l Hx) as [[T k] Hl]. rewrite Hl. eauto.
  - by left.
Qed.

Lemma state_of_holding objs h t x l T k :
  h !! l = Some (CObjectStored T k) →
  state_of (State (<[x := AnyMovable (Some l)]> objs) h t) x = Some (Holding T).
Proof. intros Hl. unfold state_of. simpl. by rewrite lookup_insert_eq; simpl; rewrite Hl. Qed.

Lemma state_of_empty objs h t x :
  state_of (State (<[x := AnyMovable None]> objs) h t) x = Some Empty.
Proof. unfold state_of. simpl. by rewrite lookup_insert_eq. Qed.

Lemma state_of_moved_from objs h t x y q :
  x ≠ y →
  state_of (State (<[x := AnyMovable q]> (<[y := AnyMovable None]> objs)) h t) y = Some Empty.
Proof. intros Hxy. unfold state_of. simpl. by rewrite lookup_insert_ne, lookup_insert_eq. Qed.

Lemma construct_holding x T (a : pack T) s s' :
  CAnyMovable_in_place x T a s = (Done (), s') →
  state_of s' x = Some (Holding T).
Proof.
  intros Hexec. unfold CAnyMovable_in_place, bind in Hexec.
  destruct (initialise T a) as [v|] eqn:Hc.
  - rewrite (make_unique_done _ _ _ _ Hc) in Hexec.
    destruct s as [objs h t]. symbolic Hexec.
    eapply state_of_holding. by rewrite lookup_insert_eq.
  - by rewrite (make_unique_throw _ _ _ Hc) in Hexec.
Qed.

Lemma emplace_holding_state x T (a : pack T) s s' :
  exclusive s →
  emplace x T a s = (Done (), s') →
  state_of s' x = Some (Holding T).
Proof.
  intros Hex Hexec.
  destruct (initialise T a) as [v|] eqn:Hc;
    [|by rewrite (emplace_throw _ _ _ _ Hc) in Hexec].
  destruct (objects s !! x) as [[[old|]]|] eqn:Hx.
  - destruct (owned_alive _ Hex x old Hx) as [[U k] Hold].
    rewrite (emplace_holding _ _ _ _ _ _ _ _ Hx Hold Hc) in Hexec. simplify_eq.
    eapply state_of_holding. rewrite lookup_delete_ne, lookup_insert_eq; [done|].
    intros Heq. rewrite Heq, fresh_heap in Hold. done.
  - rewrite (emplace_empty _ _ _ _ _ Hx Hc) in Hexec. simplify_eq.
    eapply state_of_holding. by rewrite lookup_insert_eq.
  - unfold emplace, bind in Hexec. rewrite (make_unique_done _ _ _ _ Hc) in Hexec.
    destruct s as [objs h t]. simpl in Hx. symbolic Hexec.
Qed.

(** C8.  A container is in one of two states, Empty or Holding: in every
    state a program can reach, each container either points to nothing or
    points to one live object that no other container points to, and no
    object is alive that no container points to.  A default-constructed
    container is Empty; a successful construction or [emplace] leaves it
    Holding; [clear] and being moved from leave it Empty.  Both states
    are reached. *)
Theorem container_states :
  (∀ s, reachable s →
     exclusive s
     ∧ (∀ x, is_Some (objects s !! x) →
          state_of s x = Some Empty ∨ ∃ T, state_of s x = Some (Holding T))
     ∧ (∀ x l l', owns s x l → owns s x l' → l = l'))
  ∧ (∀ s x s', exec (Default x) s = (Done (), s') → state_of s' x = Some Empty)
  ∧ (∀ s x T cat V s',
       exec (FromValue x T cat V) s = (Done (), s') → state_of s' x = Some (Holding T))
  ∧ (∀ s x T a s',
       exec (InPlace x T a) s = (Done (), s') → state_of s' x = Some (Holding T))
  ∧ (∀ s x T a s', reachable s →
       exec (Emplace x T a) s = (Done (), s') → state_of s' x = Some (Holding T))
  ∧ (∀ s x s', exec (Clear x) s = (Done (), s') → state_of s' x = Some Empty)
  ∧ (∀ s x y s', x ≠ y →
       exec (MoveCtor x y) s = (Done (), s') → state_of s' y = Some Empty)
  ∧ (∀ s x y s', x ≠ y →
       exec (MoveAssign x y) s = (Done (), s') → state_of s' y = Some Empty)
  ∧ (∀ x, ∃ s, reachable s ∧ state_of s x = Some Empty)
  ∧ (∀ x T (V : value T), ∃ s, reachable s ∧ state_of s x = Some (Holding T)).
Proof.
  repeat apply conj.
  - intros s Hreach. pose proof (reachable_exclusive _ Hreach) as Hex.
    split; [done|]. split.
    + intros x [c Hx]. by eapply state_of_alive.
    + unfold owns. intros x l l' Hl Hl'. congruence.
  - intros [objs h t] x s' Hexec. simpl in Hexec.
    unfold CAnyMovable_default in Hexec. symbolic Hexec. apply state_of_empty.
  - intros s x T cat V s' Hexec. by apply (construct_holding x T (forward cat V) s).
  - intros s x T a s' Hexec. by eapply construct_holding.
  - intros s x T a s' Hreach Hexec.
    eapply emplace_holding_state; [by apply reachable_exclusive|done].
  - intros [objs h t] x s' Hexec. simpl in Hexec.
    unfold clear in Hexec. symbolic Hexec; apply state_of_empty.
  - intros [objs h t] x y s' Hxy Hexec. simpl in Hexec.
    unfold CAnyMovable_move in Hexec. symbolic Hexec. by apply state_of_moved_from.
  - intros [objs h t] x y s' Hxy Hexec. simpl in Hexec.
    unfold operator_assign in Hexec. symbolic Hexec; by apply state_of_moved_from.
  - intros x. exists (State (<[x := AnyMovable None]> ∅) ∅ []). split.
    + apply (reachable_exec initial (Default x) (Done ())); [apply reachable_initial|done|done].
    + apply state_of_empty.
  - intros x T V.
    destruct (exec (FromValue x T Rvalue V) initial) as [r s'] eqn:Hexec.
    exists s'. simpl in Hexec.
    unfold CAnyMovable_value, bind in Hexec.
    rewrite (make_unique_done _ _ _ (move_construct T V)) in Hexec by done.
    symbolic Hexec. split.
    + eapply (reachable_exec initial (FromValue x T Rvalue V) (Done ()));
        [apply reachable_initial| |done].
      simpl. unfold CAnyMovable_value, bind.
      rewrite (make_unique_done _ _ _ (move_construct T V)) by done. done.
    + eapply state_of_holding. by rewrite lookup_insert_eq.
Qed.

(** *** Further properties of the members *)

Lemma dtor_holding s x old U k :
  owns s x old →
  heap s !! old = Some (CObjectStored U k) →
  CAnyMovable_dtor x s =
    (Done (),
     State (delete x (objects s)) (delete old (heap s)) (trace s ++ [EvDestroy U])).
Proof.
  unfold owns. intros Hx Hold. destruct s as [objs h t]; simpl in *. by steps.
Qed.

Lemma dtor_empty s x :
  objects s !! x = Some (AnyMovable None) →
  CAnyMovable_dtor x s = (Done (), State (delete x (objects s)) (heap s) (trace s)).
Proof. intros Hx. destruct s as [objs h t]; simpl in *. by steps. Qed.

(** X1.  The destructor of a container that holds an object destroys
    that object, once, and gives its storage back; the destructor of an
    empty container touches neither the free store nor the trace.  Either
    way the other containers keep exclusive ownership of what they
    hold. *)
Theorem destructor_releases s x c :
  reachable s →
  objects s !! x = Some c →
  ∃ s', CAnyMovable_dtor x s = (Done (), s')
    ∧ objects s' = delete x (objects s)
    ∧ (∀ l, pIObject_ c = Some l →
         heap s' = delete l (heap s)
         ∧ ∃ U k, heap s !! l = Some (CObjectStored U k)
             ∧ trace s' = trace s ++ [EvDestroy U])
    ∧ (pIObject_ c = None → heap s' = heap s ∧ trace s' = trace s)
    ∧ exclusive s'.
Proof.
  intros Hreach Hx. pose proof (reachable_exclusive _ Hreach) as Hex.
  assert (reachable (CAnyMovable_dtor x s).2) as Hreach'.
  { apply (reachable_exec s (Destroy x) (CAnyMovable_dtor x s).1); [done|apply surjective_pairing|].
    destruct c as [[old|]].
    - destruct (owned_alive _ Hex x old Hx) as [[U k] Hold].
      by rewrite (dtor_holding _ _ _ _ _ Hx Hold).
    - by rewrite (dtor_empty _ _ Hx). }
  destruct c as [[old|]].
  - destruct (owned_alive _ Hex x old Hx) as [[U k] Hold].
    rewrite (dtor_holding _ _ _ _ _ Hx Hold) in *.
    eexists. split; [done|]. simpl. split; [done|]. split; [|split; [done|]].
    + intros l [= <-]. split; [done|]. by exists U, k.
    + by apply reachable_exclusive.
  - rewrite (dtor_empty _ _ Hx) in *.
    eexists. split; [done|]. simpl. split; [done|]. split; [done|]. split; [done|].
    by apply reachable_exclusive.
Qed.

Lemma defined_at_true s x :
  defined_at s x = Some true → ∃ l, owns s x l.
Proof.
  unfold defined_at, owns. destruct (objects s !! x) as [[[l|]]|]; simpl; try done.
  intros _. by exists l.
Qed.

(** X2.  No operation a program may write has undefined behaviour in a
    state the program can be in: nothing is deleted twice, nothing that
    was deleted is called or deleted, whatever operations came before. *)
Theorem no_undefined_behaviour s o :
  reachable s →
  in_scope s o →
  (exec o s).1 ≠ Undefined.
Proof.
  intros Hreach Hscope. pose proof (reachable_exclusive _ Hreach) as Hex.
  destruct o as [x|x T cat v|x T a|x y|x y|x T a|x|x m|x m|x]; simpl in *.
  - unfold CAnyMovable_default, begin_lifetime. by rewrite Hscope.
  - unfold CAnyMovable_value, bind.
    destruct (initialise T (forward cat v)) as [w|] eqn:Hc.
    + rewrite (make_unique_done _ _ _ _ Hc). unfold begin_lifetime. simpl.
      by rewrite Hscope.
    + by rewrite (make_unique_throw _ _ _ Hc).
  - unfold CAnyMovable_in_place, bind.
    destruct (initialise T a) as [w|] eqn:Hc.
    + rewrite (make_unique_done _ _ _ _ Hc). unfold begin_lifetime. simpl.
      by rewrite Hscope.
    + by rewrite (make_unique_throw _ _ _ Hc).
  - destruct Hscope as [Hx [[q] Hy]]. by rewrite (move_done _ _ _ _ Hy Hx).
  - destruct Hscope as [[cx Hx] [[q] Hy]].
    destruct (decide (x = y)) as [->|Hxy]; [by rewrite (assign_self _ _ _ Hx)|].
    destruct cx as [[old|]].
    + destruct (owned_alive _ Hex x old Hx) as [[U k] Hold].
      by rewrite (assign_holding _ _ _ _ _ _ _ Hxy Hy Hx Hold).
    + by rewrite (assign_empty _ _ _ _ Hxy Hy Hx).
  - destruct Hscope as [c Hx].
    destruct (initialise T a) as [w|] eqn:Hc; [|by rewrite (emplace_throw _ _ _ _ Hc)].
    destruct c as [[old|]].
    + destruct (owned_alive _ Hex x old Hx) as [[U k] Hold].
      by rewrite (emplace_holding _ _ _ _ _ _ _ _ Hx Hold Hc).
    + by rewrite (emplace_empty _ _ _ _ _ Hx Hc).
  - destruct Hscope as [[[old|]] Hx].
    + destruct (owned_alive _ Hex x old Hx) as [[U k] Hold].
      by rewrite (clear_holding _ _ _ _ _ Hx Hold).
    + by rewrite (clear_empty _ _ Hx).
  - destruct (defined_at_true _ _ Hscope) as [l Hx].
    destruct (owned_alive _ Hex x l Hx) as [[U k] Hl].
    unfold bind. by rewrite (call_holding _ _ _ _ _ _ Hx Hl).
  - destruct (defined_at_true _ _ Hscope) as [l Hx].
    destruct (owned_alive _ Hex x l Hx) as [[U k] Hl].
    change (call_const x m) with (call x m).
    unfold bind. by rewrite (call_holding _ _ _ _ _ _ Hx Hl).
  - destruct Hscope as [[[old|]] Hx].
    + destruct (owned_alive _ Hex x old Hx) as [[U k] Hold].
      by rewrite (dtor_holding _ _ _ _ _ Hx Hold).
    + by rewrite (dtor_empty _ _ Hx).
Qed.

(** X3.  An operation that throws has changed nothing: every container
    and the whole free store are as they were before it, so each
    container is in the state it was in and calls through it return what
    they returned before; nothing was destroyed.  (The exceptions here
    are those of the stored values' constructors; failure to allocate is
    not part of the model.) *)
Theorem throw_changes_nothing s o s' :
  exec o s = (Throw, s') →
  objects s' = objects s
  ∧ heap s' = heap s
  ∧ (∀ x, state_of s' x = state_of s x)
  ∧ (∀ x ms, (calls x ms s').1 = (calls x ms s).1)
  ∧ ∃ added, trace s' = trace s ++ added ∧ constructions added = length added.
Proof.
  intros Hexec.
  assert (objects s' = objects s ∧ heap s' = heap s
          ∧ ∃ T, trace s' = trace s ++ [EvConstruct T]) as (Hobj & Hheap & T & Htrace).
  { destruct o as [x|x T cat v|x T a|x y|x y|x T a|x|x m|x m|x]; simpl in Hexec.
    - unfold CAnyMovable_default in Hexec. destruct s. by symbolic Hexec.
    - unfold CAnyMovable_value, bind in Hexec.
      destruct (initialise T (forward cat v)) as [w|] eqn:Hc.
      + rewrite (make_unique_done _ _ _ _ Hc) in Hexec. destruct s. by symbolic Hexec.
      + rewrite (make_unique_throw _ _ _ Hc) in Hexec. simplify_eq. simpl. eauto.
    - unfold CAnyMovable_in_place, bind in Hexec.
      destruct (initialise T a) as [w|] eqn:Hc.
      + rewrite (make_unique_done _ _ _ _ Hc) in Hexec. destruct s. by symbolic Hexec.
      + rewrite (make_unique_throw _ _ _ Hc) in Hexec. simplify_eq. simpl. eauto.
    - unfold CAnyMovable_move in Hexec. destruct s. by symbolic Hexec.
    - unfold operator_assign in Hexec. destruct s. by symbolic Hexec.
    - destruct (initialise T a) as [w|] eqn:Hc.
      + unfold emplace, bind in Hexec.
        rewrite (make_unique_done _ _ _ _ Hc) in Hexec. destruct s. by symbolic Hexec.
      + rewrite (emplace_throw _ _ _ _ Hc) in Hexec. simplify_eq. simpl. eauto.
    - unfold clear in Hexec. destruct s. by symbolic Hexec.
    - unfold call, invoke, operator_arrow in Hexec. destruct s. by symbolic Hexec.
    - unfold call_const, invoke, operator_arrow_const in Hexec. destruct s. by symbolic Hexec.
    - unfold CAnyMovable_dtor in Hexec. destruct s. by symbolic Hexec. }
  assert (s' = State (objects s) (heap s) (trace s ++ [EvConstruct T])) as ->.
  { destruct s'. simpl in *. by subst. }
  split; [done|]. split; [done|]. split; [done|]. split.
  - intros x ms. clear. destruct s as [objs h t]. simpl.
    generalize (t ++ [EvConstruct T]). intros t'. revert h.
    induction ms as [|m ms IH]; intros h; [done|]. simpl.
    unfold bind at 1 3. unfold call, invoke, operator_arrow, bind, load, get. simpl.
    destruct (objs !! x) as [[[l|]]|]; simpl; try done.
    destruct (h !! l) as [[U k]|]; simpl; try done.
    destruct (TImplementation U m (Object k)) as [r v]. simpl.
    specialize (IH (<[l := CObjectStored U (Keeper v)]> h)). unfold bind.
    destruct (calls x ms _) as [[rs| |] ?], (calls x ms _) as [[rs'| |] ?];
      simpl in *; congruence.
  - exists [EvConstruct T]. done.
Qed.

Lemma owned_apart s x y l l' :
  exclusive s → x ≠ y → owns s x l → owns s y l' → l ≠ l'.
Proof. intros Hex Hxy Hx Hy ->. by apply Hxy, (owned_once _ Hex x y l'). Qed.

Lemma fresh_apart s x l :
  exclusive s → owns s x l → fresh (dom (heap s)) ≠ l.
Proof.
  intros Hex Hx Heq. destruct (owned_alive _ Hex x l Hx) as [o Hl].
  by rewrite <-Heq, fresh_heap in Hl.
Qed.

Ltac frame_apart Hex :=
  first [ done
        | by eapply (owned_apart _ _ _ _ _ Hex); [|done|done]
        | by eapply (fresh_apart _ _ _ Hex) ].

Ltac frame_close Hex :=
  break_containers; simpl; split;
  [ by rewrite ?lookup_insert_ne, ?lookup_delete_ne by done
  | let l' := fresh "l" in
    let Hl' := fresh "Hl" in
    intros l' Hl';
    repeat first [ rewrite lookup_insert_ne by frame_apart Hex
                 | rewrite lookup_delete_ne by frame_apart Hex ];
    done ].

Lemma exec_frame s o r s' y :
  exclusive s →
  y ∉ names o →
  exec o s = (r, s') →
  r ≠ Undefined →
  objects s' !! y = objects s !! y
  ∧ ∀ l, owns s y l → heap s' !! l = heap s !! l.
Proof.
  intros Hex Hy Hexec Hr. destruct s as [objs h t].
  destruct o as [x|x T cat v|x T a|x z|x z|x T a|x|x m|x m|x]; simpl in Hy, Hexec.
  all: try assert (x ≠ y) by set_solver.
  all: try assert (z ≠ y) by set_solver.
  - unfold CAnyMovable_default in Hexec. symbolic Hexec; try done. frame_close Hex.
  - unfold CAnyMovable_value, bind in Hexec.
    destruct (initialise T (forward cat v)) as [w|] eqn:Hc.
    + rewrite (make_unique_done _ _ _ _ Hc) in Hexec.
      symbolic Hexec; try done. frame_close Hex.
    + rewrite (make_unique_throw _ _ _ Hc) in Hexec. by simplify_eq.
  - unfold CAnyMovable_in_place, bind in Hexec.
    destruct (initialise T a) as [w|] eqn:Hc.
    + rewrite (make_unique_done _ _ _ _ Hc) in Hexec.
      symbolic Hexec; try done. frame_close Hex.
    + rewrite (make_unique_throw _ _ _ Hc) in Hexec. by simplify_eq.
  - unfold CAnyMovable_move in Hexec.
    destruct (decide (x = z)) as [->|Hxz]; symbolic Hexec; try done.
    frame_close Hex.
  - unfold operator_assign in Hexec.
    destruct (decide (x = z)) as [->|Hxz]; symbolic Hexec; try done; frame_close Hex.
  - destruct (initialise T a) as [w|] eqn:Hc;
      [|rewrite (emplace_throw _ _ _ _ Hc) in Hexec; by simplify_eq].
    unfold emplace, bind in Hexec.
    rewrite (make_unique_done _ _ _ _ Hc) in Hexec. simpl in Hexec.
    destruct (objs !! x) as [[[old|]]|] eqn:Hx.
    + assert (fresh (dom h) ≠ old) by (by eapply (fresh_apart _ x _ Hex)).
      symbolic Hexec; try done. frame_close Hex.
    + symbolic Hexec; try done. frame_close Hex.
    + symbolic Hexec; done.
  - unfold clear in Hexec. symbolic Hexec; try done; frame_close Hex.
  - unfold call, invoke, operator_arrow in Hexec. symbolic Hexec; try done.
    frame_close Hex.
  - unfold call_const, invoke, operator_arrow_const in Hexec. symbolic Hexec; try done.
    frame_close Hex.
  - unfold CAnyMovable_dtor in Hexec. symbolic Hexec; try done; frame_close Hex.
Qed.

(** X4.  An operation leaves alone every container it does not name:
    that container is alive or not as before, holds what it held, the
    object it holds is as it was, and calls through it return what they
    would have returned before the operation. *)
Theorem other_containers_untouched s o r s' y :
  reachable s →
  y ∉ names o →
  exec o s = (r, s') →
  r ≠ Undefined →
  objects s' !! y = objects s !! y
  ∧ ∀ l, owns s y l →
      owns s' y l
      ∧ heap s' !! l = heap s !! l
      ∧ ∀ ms, (calls y ms s').1 = (calls y ms s).1.
Proof.
  intros Hreach Hy Hexec Hr.
  destruct (exec_frame s o r s' y (reachable_exclusive _ Hreach) Hy Hexec Hr)
    as [Hobj Hheap].
  split; [done|]. intros l Hl.
  assert (owns s' y l) as Hl' by (unfold owns in *; congruence).
  split; [done|]. split; [by apply Hheap|].
  intros ms. apply calls_same_object with l; auto.
Qed.

Lemma exclusive_drop_empty objs h t x :
  objs !! x = None →
  exclusive (State (<[x := AnyMovable None]> objs) h t) →
  exclusive (State objs h t).
Proof.
  intros Hx [E1 E2 E3]. split; unfold owns in *; simpl in *.
  - intros y l Hy. apply (E1 y). rewrite lookup_insert_ne; [done|congruence].
  - intros y z l Hy Hz. apply (E2 y z l); rewrite lookup_insert_ne; congruence.
  - intros l Hl. destruct (E3 l Hl) as [y Hy]. exists y.
    apply lookup_insert_Some in Hy as [[_ [=]]|[_ Hy]]. done.
Qed.

Lemma exclusive_drop_holder objs h t x l :
  objs !! x = None →
  exclusive (State (<[x := AnyMovable (Some l)]> objs) h t) →
  exclusive (State objs (delete l h) t).
Proof.
  intros Hx [E1 E2 E3]. split; unfold owns in *; simpl in *.
  - intros y l' Hy. assert (x ≠ y) by congruence.
    rewrite lookup_delete_is_Some. split.
    + intros <-. apply H0, (E2 x y l); [by rewrite lookup_insert_eq|].
      by rewrite lookup_insert_ne.
    + apply (E1 y). by rewrite lookup_insert_ne.
  - intros y z l' Hy Hz. apply (E2 y z l'); rewrite lookup_insert_ne; congruence.
  - intros l'. rewrite lookup_delete_is_Some. intros [Hne Hl].
    destruct (E3 l' Hl) as [y Hy]. exists y.
    apply lookup_insert_Some in Hy as [[_ [=]]|[_ Hy]]; done.
Qed.

Lemma exclusive_size objs h t :
  exclusive (State objs h t) →
  size h = size (omap (λ c, get (pIObject_ c)) objs).
Proof.
  revert h. induction objs as [|x c objs Hx IH] using map_ind; intros h Hex.
  - rewrite omap_empty, map_size_empty. apply map_size_empty_iff, map_empty.
    intros l. apply eq_None_not_Some. intros Hl.
    destruct (alive_owned _ Hex l Hl) as [y Hy]. unfold owns in Hy. simpl in Hy.
    by rewrite lookup_empty in Hy.
  - destruct c as [[l|]].
    + rewrite (omap_insert_Some _ _ _ _ l) by done.
      rewrite map_size_insert_None by (by rewrite lookup_omap, Hx).
      assert (is_Some (h !! l)) as [o Hl].
      { apply (owned_alive _ Hex x). unfold owns. simpl. by rewrite lookup_insert_eq. }
      assert (size h = S (size (delete l h))) as ->.
      { rewrite <-(insert_delete_id h l o Hl) at 1.
        by rewrite map_size_insert_None by apply lookup_delete_eq. }
      f_equal. apply IH. by eapply exclusive_drop_holder.
    + rewrite omap_insert_None by done.
      rewrite delete_id by (by rewrite lookup_omap, Hx).
      apply IH. by eapply exclusive_drop_empty.
Qed.

(** X5.  Nothing leaks and nothing is shared: in every state a program
    can be in, the live objects on the free store are exactly the objects
    held by the containers, there are as many of them as containers that
    hold an object, and once every container has been destroyed the free
    store is empty. *)
Theorem live_objects_are_held s :
  reachable s →
  (∀ l, is_Some (heap s !! l) ↔ ∃ x, holders s !! x = Some l)
  ∧ size (heap s) = size (holders s)
  ∧ (objects s = ∅ → heap s = ∅).
Proof.
  intros Hreach. pose proof (reachable_exclusive _ Hreach) as Hex.
  assert (∀ x l, holders s !! x = Some l ↔ owns s x l) as Hown.
  { intros x l. unfold holders, owns. rewrite lookup_omap.
    destruct (objects s !! x) as [[[l'|]]|]; simpl; unfold get; naive_solver. }
  assert (size (heap s) = size (holders s)) as Hsize.
  { destruct s as [objs h t]. by apply (exclusive_size objs h t). }
  split; [|split; [done|]].
  - intros l. split.
    + intros Hl. destruct (alive_owned _ Hex l Hl) as [x Hx]. exists x. by apply Hown.
    + intros [x Hx]. apply (owned_alive _ Hex x). by apply Hown.
  - intros Hempty. apply map_size_empty_iff. rewrite Hsize.
    unfold holders. by rewrite Hempty, omap_empty, map_size_empty.
Qed.

(** X6.  Move-assigning a container to itself changes nothing: the
    object it holds is neither destroyed nor replaced. *)
Theorem self_move_assignment_keeps s x c :
  objects s !! x = Some c →
  operator_assign x x s = (Done (), s)
  ∧ defined_at s x = Some (isDefined c).
Proof.
  intros Hx. split; [by eapply assign_self|].
  unfold defined_at. by rewrite Hx.
Qed.

(** X7.  Move-assigning from an empty container is [clear()]: the
    destination ends up empty and what it held is destroyed, exactly as
    if [clear()] had been called on it. *)
Theorem move_assign_from_empty_is_clear s x y :
  reachable s →
  x ≠ y →
  objects s !! y = Some (AnyMovable None) →
  is_Some (objects s !! x) →
  operator_assign x y s = clear x s
  ∧ ∃ s', clear x s = (Done (), s') ∧ defined_at s' x = Some false.
Proof.
  intros Hreach Hxy Hy [[[old|]] Hx]. 
  - destruct (owned_alive _ (reachable_exclusive _ Hreach) x old Hx) as [[U k] Hold].
    rewrite (assign_holding _ _ _ _ _ _ _ Hxy Hy Hx Hold).
    rewrite (clear_holding _ _ _ _ _ Hx Hold).
    rewrite (insert_id (objects s) y) by done.
    split; [done|]. eexists. split; [done|]. by rewrite defined_at_insert.
  - rewrite (assign_empty _ _ _ _ Hxy Hy Hx), (clear_empty _ _ Hx).
    rewrite (insert_id (objects s) y), (insert_id (objects s) x), state_eta by done.
    split; [done|]. eexists. split; [done|]. unfold defined_at. by rewrite Hx.
Qed.

(** X8.  Moving a container out into a new one and move-assigning it
    back is a round trip: the first container holds its object again,
    the free store and the trace are as before, and all that is new is
    the second container, which is empty. *)
Theorem move_out_and_back s x y l :
  owns s x l →
  objects s !! y = None →
  ∃ s1, CAnyMovable_move y x s = (Done (), s1)
    ∧ owns s1 y l
    ∧ defined_at s1 x = Some false
    ∧ operator_assign x y s1 =
        (Done (), State (<[y := AnyMovable None]> (objects s)) (heap s) (trace s)).
Proof.
  intros Hx Hy. assert (x ≠ y) as Hxy by (unfold owns in Hx; congruence).
  eexists. split; [by eapply move_done|]. split.
  { unfold owns. simpl. by rewrite lookup_insert_eq. }
  split.
  { unfold defined_at. simpl. by rewrite lookup_insert_ne, lookup_insert_eq. }
  rewrite (assign_empty _ x y (Some l)); simpl.
  - f_equal. f_equal. apply map_eq. intros z.
    destruct (decide (z = x)) as [->|Hzx]; [by rewrite lookup_insert_eq, lookup_insert_ne|].
    rewrite lookup_insert_ne by done.
    destruct (decide (z = y)) as [->|Hzy]; [by rewrite !lookup_insert_eq|].
    by rewrite !lookup_insert_ne.
  - done.
  - by rewrite lookup_insert_eq.
  - by rewrite lookup_insert_ne, lookup_insert_eq.
Qed.

(** X9.  After a successful [emplace<T>(args...)] on any container,
    empty or holding an object of any type, [isDefined()] is true and
    calls through the container return what the implementation for T
    returns on the value T's constructor made from the arguments. *)
Theorem emplace_dispatch s x T (a : pack T) v :
  reachable s →
  is_Some (objects s !! x) →
  initialise T a = Some v →
  ∃ s' l, emplace x T a s = (Done (), s')
    ∧ defined_at s' x = Some true
    ∧ state_of s' x = Some (Holding T)
    ∧ owns s' x l
    ∧ ∀ ms, ∃ s'', calls x ms s' = (Done (direct T ms v).1, s'')
        ∧ owns s'' x l
        ∧ heap s'' !! l = Some (CObjectStored T (Keeper (direct T ms v).2)).
Proof.
  intros Hreach [c Hx] Hc. pose proof (reachable_exclusive _ Hreach) as Hex.
  assert (∃ s', emplace x T a s = (Done (), s')
            ∧ objects s' = <[x := AnyMovable (Some (fresh (dom (heap s))))]> (objects s)
            ∧ heap s' !! fresh (dom (heap s)) = Some (CObjectStored T (Keeper v)))
    as (s' & Hrun & Hobj & Hl).
  { destruct c as [[old|]].
    - destruct (owned_alive _ Hex x old Hx) as [[U k] Hold].
      eexists. split; [by eapply emplace_holding|]. split; [done|]. simpl.
      rewrite lookup_delete_ne, lookup_insert_eq; [done|].
      intros Heq. by apply (fresh_apart s x old Hex Hx).
    - eexists. split; [by eapply emplace_empty|]. split; [done|]. simpl.
      by rewrite lookup_insert_eq. }
  assert (owns s' x (fresh (dom (heap s)))) as Hown.
  { unfold owns. by rewrite Hobj, lookup_insert_eq. }
  exists s', (fresh (dom (heap s))). split; [done|].
  split; [unfold defined_at; by rewrite Hown|].
  split; [unfold state_of; rewrite Hown; simpl; unfold get; by rewrite Hl|].
  split; [done|]. intros ms. eexists. split.
  - by rewrite (calls_holding s' x (fresh (dom (heap s))) T (Keeper v)).
  - simpl. split; [done|]. by rewrite lookup_insert_eq.
Qed.

(** X10.  Calls through a container change the value of the object that
    container holds and nothing else: after any sequence of calls that
    return, every container is as it was, every other object on the free
    store has the value it had, the object called has the type it had,
    nothing was constructed or destroyed, and calls through any other
    container return what they would have returned. *)
Theorem calls_change_only_their_object s x ms rs s' :
  reachable s →
  calls x ms s = (Done rs, s') →
  objects s' = objects s
  ∧ trace s' = trace s
  ∧ (∀ z, state_of s' z = state_of s z)
  ∧ (∀ l, ¬ owns s x l → heap s' !! l = heap s !! l)
  ∧ (∀ l, owns s x l →
       ∃ T k, heap s !! l = Some (CObjectStored T k)
         ∧ rs = (direct T ms (Object k)).1
         ∧ heap s' !! l = Some (CObjectStored T (Keeper (direct T ms (Object k)).2)))
  ∧ (∀ y ms', y ≠ x → (calls y ms' s').1 = (calls y ms' s).1).
Proof.
  intros Hreach Hcalls. pose proof (reachable_exclusive _ Hreach) as Hex.
  destruct (objects s !! x) as [[[l|]]|] eqn:Hx.
  - destruct (owned_alive _ Hex x l Hx) as [[T k] Hl].
    rewrite (calls_holding _ _ _ _ _ ms Hx Hl) in Hcalls. simplify_eq. simpl.
    split; [done|]. split; [done|]. split; [|split; [|split]].
    + intros z. unfold state_of. simpl.
      destruct (objects s !! z) as [[[l'|]]|]; simpl; try done. unfold get.
      destruct (decide (l = l')) as [<-|Hne].
      * by rewrite lookup_insert_eq, Hl.
      * by rewrite lookup_insert_ne.
    + intros l' Hl'. rewrite lookup_insert_ne; [done|]. intros <-. by apply Hl'.
    + intros l' Hl'. unfold owns in Hl'. rewrite Hx in Hl'. simplify_eq.
      exists T, k. by rewrite lookup_insert_eq.
    + intros y ms' Hy.
      destruct (objects s !! y) as [[[ly|]]|] eqn:Hly.
      * apply (calls_same_object _ s y y ly); [done|done|]. simpl.
        rewrite lookup_insert_ne; [done|].
        by apply (owned_apart s x y l ly Hex).
      * destruct ms' as [|m ms']; [done|]. simpl.
        unfold bind at 1 3. by rewrite !call_empty.
      * destruct ms' as [|m ms']; [done|]. simpl.
        unfold bind at 1 3. unfold call, bind, load. simpl. by rewrite Hly.
  - destruct ms as [|m ms].
    + simpl in Hcalls. unfold ret in Hcalls. simplify_eq.
      split; [done|]. split; [done|]. split; [done|]. split; [done|].
      split; [|done]. intros l Hl. unfold owns in Hl. by rewrite Hx in Hl.
    + simpl in Hcalls. unfold bind at 1 in Hcalls. by rewrite (call_empty _ _ _ Hx) in Hcalls.
  - destruct ms as [|m ms].
    + simpl in Hcalls. unfold ret in Hcalls. simplify_eq.
      split; [done|]. split; [done|]. split; [done|]. split; [done|].
      split; [|done]. intros l Hl. unfold owns in Hl. by rewrite Hx in Hl.
    + simpl in Hcalls. unfold bind at 1 in Hcalls.
      unfold call, bind, load in Hcalls. by rewrite Hx in Hcalls.
Qed.

(** X11.  Default construction followed by a successful
    [emplace<T>(args...)] gives the very state that tagged in-place
    construction from the same arguments gives.  When the constructor of
    T throws the two differ: after the failed [emplace] the container is
    alive and empty, after the failed in-place construction there is no
    container. *)
Theorem default_then_emplace s x T (a : pack T) :
  objects s !! x = None →
  ∃ s0, CAnyMovable_default x s = (Done (), s0)
    ∧ defined_at s0 x = Some false
    ∧ match initialise T a with
      | Some _ => emplace x T a s0 = CAnyMovable_in_place x T a s
      | None =>
          ∃ s1 s2, emplace x T a s0 = (Throw, s1)
            ∧ CAnyMovable_in_place x T a s = (Throw, s2)
            ∧ defined_at s1 x = Some false
            ∧ defined_at s2 x = None
            ∧ heap s1 = heap s ∧ heap s2 = heap s
      end.
Proof.
  intros Hx. eexists. split.
  { unfold CAnyMovable_default, begin_lifetime. by rewrite Hx. }
  split; [by rewrite defined_at_insert|].
  destruct (initialise T a) as [v|] eqn:Hc.
  - rewrite (emplace_empty _ _ _ _ v); [|simpl; by rewrite lookup_insert_eq|done].
    unfold CAnyMovable_in_place, bind. rewrite (make_unique_done _ _ _ _ Hc).
    unfold begin_lifetime. simpl. by rewrite Hx, insert_insert_eq.
  - rewrite (emplace_throw _ _ _ _ Hc).
    unfold CAnyMovable_in_place, bind. rewrite (make_unique_throw _ _ _ Hc).
    eexists _, _. split; [done|]. split; [done|]. simpl.
    split; [by rewrite defined_at_insert|].
    split; [|done]. unfold defined_at. simpl. by rewrite Hx.
Qed.
End Facts.

(** *** The theorems at work on [Demo] *)

Section OnDemo.
Import Demo.

Lemma after_program_reachable : reachable after_program.
Proof. apply (run_reachable program initial); [apply reachable_initial|reflexivity]. Qed.

Example after_program_x :
  state_of after_program "x" = Some (Holding TCounter)
  ∧ state_of after_program "y" = Some Empty.
Proof. split; reflexivity. Qed.

(** [x.emplace<Flag>(1)] on the counter: the flag is constructed, then the
    counter is destroyed. *)
Example emplace_flag_over_counter :
  let s' := (emplace "x" TFlag (number TFlag 1) after_program).2 in
  state_of s' "x" = Some (Holding TFlag)
  ∧ trace s' = [EvConstruct TCounter; EvConstruct TFlag; EvDestroy TCounter]
  ∧ map_to_list (heap s') = [(2%positive, flag true)].
Proof. repeat split. Qed.

(** [y = std::move(x); y->Bump(); y->Read();] *)
Example move_then_call :
  let s1 := (operator_assign "y" "x" after_program).2 in
  let s2 := (call "y" Bump s1).2 in
  defined_at s1 "x" = Some false
  ∧ (call "y" Read s2).1 = Done 6%Z
  ∧ (call "x" Read s2).1 = Undefined.
Proof. repeat split. Qed.

(** [x = std::move(x);] leaves [x] as it was. *)
Example self_move_assignment :
  operator_assign "x" "x" after_program = (Done (), after_program).
Proof. apply (assign_self (H := demo) after_program "x" (AnyMovable (Some 1%positive))). reflexivity. Qed.

Lemma emplace_constructs_before_release_witness :
  owns after_program "x" 1
  ∧ heap after_program !! 1%positive = Some (counter 5)
  ∧ (initialise TFlag (number TFlag 7) = None →
       ∃ s', emplace "x" TFlag (number TFlag 7) after_program = (Throw, s')
         ∧ objects s' = objects after_program
         ∧ heap s' = heap after_program
         ∧ defined_at s' "x" = Some true
         ∧ trace s' = trace after_program ++ [EvConstruct TFlag])
  ∧ (∀ v, initialise TFlag (number TFlag 7) = Some v →
       ∃ l s', emplace "x" TFlag (number TFlag 7) after_program = (Done (), s')
         ∧ owns s' "x" l
         ∧ heap s' !! l = Some (flag v)
         ∧ heap s' !! 1%positive = None
         ∧ trace s' = trace after_program ++ [EvConstruct TFlag; EvDestroy TCounter]).
Proof.
  split; [reflexivity|]. split; [reflexivity|].
  apply (emplace_constructs_before_release (H := demo) after_program "x" 1 TCounter (keeper (counter 5)) TFlag (number TFlag 7));
    reflexivity.
Defined.

(** C1, as stated, fails: [x] holds a counter, the constructor of the
    flag throws on 7, and after [x.emplace<Flag>(7)] has thrown [x] still
    holds the counter, which was not destroyed. *)
Lemma emplace_failure_keeps_previous :
  owns after_program "x" 1
  ∧ (∃ s', emplace "x" TFlag (number TFlag 7) after_program = (Throw, s')
       ∧ defined_at s' "x" = Some true
       ∧ heap s' !! 1%positive = Some (counter 5)
       ∧ trace s' = [EvConstruct TCounter; EvConstruct TFlag])
  ∧ ¬ (∀ s x old o T (a : pack T) s',
         owns s x old → heap s !! old = Some o →
         emplace x T a s = (Throw, s') → defined_at s' x = Some false).
Proof.
  split; [reflexivity|]. split.
  - eexists. split; [reflexivity|]. repeat split.
  - intros Hclaim.
    specialize (Hclaim after_program "x" 1%positive (counter 5) TFlag (number TFlag 7) _
                  eq_refl eq_refl eq_refl).
    discriminate Hclaim.
Qed.

Lemma in_place_constructs_once_witness :
  objects after_program !! "z" = None
  ∧ construct TFlag 1%Z = Some true
  ∧ (∃ r s', CAnyMovable_in_place "z" TFlag (number TFlag 1) after_program = (r, s')
       ∧ trace s' = trace after_program ++ [EvConstruct TFlag]
       ∧ constructions (trace s') = S (constructions (trace after_program))
       ∧ r = Done ()
       ∧ ∃ l, heap after_program !! l = None ∧ owns s' "z" l
           ∧ heap s' = <[l := flag true]> (heap after_program))
  ∧ objects after_program !! "x" = Some (AnyMovable (Some 1%positive))
  ∧ (∃ r s' rest, emplace "x" TFlag (number TFlag 1) after_program = (r, s')
       ∧ trace s' = trace after_program ++ EvConstruct TFlag :: rest
       ∧ constructions rest = 0
       ∧ constructions (trace s') = S (constructions (trace after_program))
       ∧ r = Done ()
       ∧ ∃ l, heap after_program !! l = None ∧ owns s' "x" l
           ∧ heap s' !! l = Some (flag true)
           ∧ ∀ l', is_Some (heap s' !! l') → l' = l ∨ is_Some (heap after_program !! l')).
Proof.
  split; [reflexivity|]. split; [reflexivity|].
  destruct (in_place_constructs_once (H := demo) after_program "z" TFlag (number TFlag 1))
    as [Hnew _].
  destruct (in_place_constructs_once (H := demo) after_program "x" TFlag (number TFlag 1))
    as [_ Hemplace].
  split; [exact (Hnew eq_refl)|]. split; [reflexivity|].
  apply (Hemplace (AnyMovable (Some 1%positive)) eq_refl).
  intros old [= <-]. by eexists.
Defined.

Lemma move_transfers_ownership_witness :
  reachable after_program
  ∧ owns after_program "x" 1
  ∧ "y" ≠ "x"
  ∧ is_Some (objects after_program !! "y")
  ∧ ∃ s', operator_assign "y" "x" after_program = (Done (), s')
      ∧ defined_at s' "x" = Some false
      ∧ defined_at s' "y" = Some true
      ∧ owns s' "y" 1
      ∧ heap s' !! 1%positive = heap after_program !! 1%positive
      ∧ (∀ l', is_Some (heap s' !! l') → is_Some (heap after_program !! l'))
      ∧ constructions (trace s') = constructions (trace after_program)
      ∧ ∀ ms, (calls "y" ms s').1 = (calls "x" ms after_program).1.
Proof.
  split; [apply after_program_reachable|]. split; [reflexivity|].
  split; [discriminate|]. split; [by eexists|].
  apply (proj2 (move_transfers_ownership (H := demo) after_program "y" "x" 1
                  after_program_reachable eq_refl ltac:(discriminate))).
  by eexists.
Defined.

Lemma value_ctor_dispatch_witness :
  objects after_program !! "z" = None
  ∧ initialise TCounter (forward Rvalue (7%Z : demo_value TCounter)) = Some 7%Z
  ∧ ∃ s' l, CAnyMovable_value "z" TCounter Rvalue (7%Z : demo_value TCounter) after_program
              = (Done (), s')
      ∧ defined_at s' "z" = Some true
      ∧ owns s' "z" l
      ∧ heap s' !! l = Some (counter 7)
      ∧ ∀ ms, ∃ s'', calls "z" ms s' = (Done (direct TCounter ms 7%Z).1, s'')
          ∧ owns s'' "z" l
          ∧ heap s'' !! l = Some (counter (direct TCounter ms 7%Z).2).
Proof.
  split; [reflexivity|]. split; [reflexivity|].
  apply (value_ctor_dispatch (H := demo) after_program "z" TCounter Rvalue 7%Z); reflexivity.
Defined.

Lemma clear_empties_and_is_idempotent_witness :
  reachable after_program
  ∧ objects after_program !! "x" = Some (AnyMovable (Some 1%positive))
  ∧ ∃ s', clear "x" after_program = (Done (), s')
      ∧ defined_at s' "x" = Some false
      ∧ (isDefined (AnyMovable (Some 1%positive)) = false → s' = after_program)
      ∧ clear "x" s' = (Done (), s').
Proof.
  split; [apply after_program_reachable|]. split; [reflexivity|].
  apply (clear_empties_and_is_idempotent (H := demo) after_program "x" (AnyMovable (Some 1%positive))
           after_program_reachable).
  reflexivity.
Defined.

Lemma container_states_witness :
  reachable after_program
  ∧ exclusive after_program
  ∧ (∀ x, is_Some (objects after_program !! x) →
       state_of after_program x = Some Empty
       ∨ ∃ T, state_of after_program x = Some (Holding T))
  ∧ (∀ x l l', owns after_program x l → owns after_program x l' → l = l').
Proof.
  split; [apply after_program_reachable|].
  apply (proj1 (container_states (H := demo)) after_program after_program_reachable).
Defined.

Lemma arrow_null_iff_empty_witness :
  reachable after_program
  ∧ objects after_program !! "x" = Some (AnyMovable (Some 1%positive))
  ∧ owns after_program "x" 1
  ∧ (isDefined (AnyMovable (Some 1%positive)) = true
     ∧ target (operator_arrow (AnyMovable (Some 1%positive))) = Some 1%positive
     ∧ ∃ T k, heap after_program !! 1%positive = Some (CObjectStored T k)
         ∧ state_of after_program "x" = Some (Holding T)
         ∧ ∀ m, call "x" m after_program =
             (Done (TImplementation T m (Object k)).1,
              State (objects after_program)
                    (<[1%positive := CObjectStored T (Keeper (TImplementation T m (Object k)).2)]>
                       (heap after_program))
                    (trace after_program)))
  ∧ heap after_program !! 1%positive = Some (counter 5)
  ∧ (call "x" Read after_program).1 = Done 5%Z
  ∧ objects after_program !! "y" = Some (AnyMovable None)
  ∧ isDefined (AnyMovable None) = false
  ∧ (pIObject_ (AnyMovable None) = None
     ∧ target (operator_arrow (AnyMovable None)) = None
     ∧ ∀ m, call "y" m after_program = (Undefined, after_program)).
Proof.
  split; [apply after_program_reachable|]. split; [reflexivity|].
  split; [reflexivity|].
  destruct (arrow_null_iff_empty (H := demo) after_program "x" (AnyMovable (Some 1%positive))
              after_program_reachable eq_refl)
    as (_ & _ & _ & Hholding & _ & _).
  destruct (arrow_null_iff_empty (H := demo) after_program "y" (AnyMovable None)
              after_program_reachable eq_refl)
    as (_ & _ & _ & _ & _ & Hempty).
  split; [exact (Hholding 1%positive eq_refl)|].
  split; [reflexivity|]. split; [reflexivity|].
  split; [reflexivity|]. split; [reflexivity|]. exact (Hempty eq_refl).
Defined.

Lemma const_arrow_grants_mutation_witness :
  operator_arrow_const (AnyMovable (Some 1%positive)) = operator_arrow (AnyMovable (Some 1%positive))
  ∧ const_method Bump = false
  ∧ callable (operator_arrow_const (AnyMovable (Some 1%positive))) Bump = true
  ∧ call_const "x" Bump after_program = call "x" Bump after_program
  ∧ call_const "x" Bump after_program =
      (Done 5%Z,
       State (objects after_program) (<[1%positive := counter 6]> (heap after_program))
             (trace after_program)).
Proof.
  destruct (const_arrow_grants_mutation (H := demo) (AnyMovable (Some 1%positive)))
    as (Hsame & _ & Hcallable & Hcall).
  split; [exact Hsame|]. split; [reflexivity|]. split; [exact (Hcallable Bump)|].
  exact (Hcall after_program "x" 1%positive TCounter (keeper (counter 5)) Bump
           eq_refl eq_refl eq_refl).
Defined.

Lemma destructor_releases_witness :
  reachable after_program
  ∧ objects after_program !! "x" = Some (AnyMovable (Some 1%positive))
  ∧ ∃ s', CAnyMovable_dtor "x" after_program = (Done (), s')
      ∧ objects s' = delete "x" (objects after_program)
      ∧ (∀ l, pIObject_ (AnyMovable (Some 1%positive)) = Some l →
           heap s' = delete l (heap after_program)
           ∧ ∃ U k, heap after_program !! l = Some (CObjectStored U k)
               ∧ trace s' = trace after_program ++ [EvDestroy U])
      ∧ (pIObject_ (AnyMovable (Some 1%positive)) = None →
           heap s' = heap after_program ∧ trace s' = trace after_program)
      ∧ exclusive s'.
Proof.
  split; [apply after_program_reachable|]. split; [reflexivity|].
  apply (destructor_releases (H := demo) after_program "x" (AnyMovable (Some 1%positive))
           after_program_reachable).
  reflexivity.
Defined.

Lemma no_undefined_behaviour_witness :
  reachable after_program
  ∧ in_scope after_program (Emplace "x" TFlag (number TFlag 7))
  ∧ (exec (Emplace "x" TFlag (number TFlag 7)) after_program).1 ≠ Undefined.
Proof.
  split; [apply after_program_reachable|]. split; [by eexists|].
  apply (no_undefined_behaviour (H := demo) after_program
           (Emplace (H := demo) "x" TFlag (number TFlag 7))
           after_program_reachable).
  by eexists.
Defined.

Lemma throw_changes_nothing_witness :
  ∃ s', exec (Emplace "x" TFlag (number TFlag 7)) after_program = (Throw, s')
    ∧ objects s' = objects after_program
    ∧ heap s' = heap after_program
    ∧ (∀ x, state_of s' x = state_of after_program x)
    ∧ (∀ x ms, (calls x ms s').1 = (calls x ms after_program).1)
    ∧ ∃ added, trace s' = trace after_program ++ added
        ∧ constructions added = length added.
Proof.
  eexists. split; [reflexivity|].
  apply (throw_changes_nothing (H := demo) after_program
           (Emplace (H := demo) "x" TFlag (number TFlag 7))).
  reflexivity.
Defined.

Lemma other_containers_untouched_witness :
  reachable after_program
  ∧ ("x" ∉ names (Emplace "y" TFlag (number TFlag 1)))
  ∧ ∃ s', exec (Emplace "y" TFlag (number TFlag 1)) after_program = (Done (), s')
      ∧ objects s' !! "x" = objects after_program !! "x"
      ∧ ∀ l, owns after_program "x" l →
          owns s' "x" l
          ∧ heap s' !! l = heap after_program !! l
          ∧ ∀ ms, (calls "x" ms s').1 = (calls "x" ms after_program).1.
Proof.
  split; [apply after_program_reachable|].
  assert ("x" ∉ names (Emplace "y" TFlag (number TFlag 1))) as Hx.
  { simpl. rewrite list_elem_of_singleton. discriminate. }
  split; [exact Hx|]. eexists. split; [reflexivity|].
  apply (other_containers_untouched (H := demo) after_program
           (Emplace (H := demo) "y" TFlag (number TFlag 1)) (Done ()) _ "x"
           after_program_reachable Hx eq_refl).
  discriminate.
Defined.

Lemma live_objects_are_held_witness :
  reachable after_program
  ∧ (∀ l, is_Some (heap after_program !! l) ↔ ∃ x, holders after_program !! x = Some l)
  ∧ size (heap after_program) = size (holders after_program)
  ∧ (objects after_program = ∅ → heap after_program = ∅).
Proof.
  split; [apply after_program_reachable|].
  apply (live_objects_are_held (H := demo) after_program after_program_reachable).
Defined.

Lemma self_move_assignment_keeps_witness :
  objects after_program !! "x" = Some (AnyMovable (Some 1%positive))
  ∧ operator_assign "x" "x" after_program = (Done (), after_program)
  ∧ defined_at after_program "x" = Some (isDefined (AnyMovable (Some 1%positive))).
Proof.
  split; [reflexivity|].
  apply (self_move_assignment_keeps (H := demo) after_program "x" (AnyMovable (Some 1%positive))).
  reflexivity.
Defined.

Lemma move_assign_from_empty_is_clear_witness :
  reachable after_program
  ∧ "x" ≠ "y"
  ∧ objects after_program !! "y" = Some (AnyMovable None)
  ∧ is_Some (objects after_program !! "x")
  ∧ operator_assign "x" "y" after_program = clear "x" after_program
  ∧ ∃ s', clear "x" after_program = (Done (), s') ∧ defined_at s' "x" = Some false.
Proof.
  split; [apply after_program_reachable|]. split; [discriminate|].
  split; [reflexivity|]. split; [by eexists|].
  apply (move_assign_from_empty_is_clear (H := demo) after_program "x" "y"
           after_program_reachable ltac:(discriminate) eq_refl).
  by eexists.
Defined.

Lemma move_out_and_back_witness :
  owns after_program "x" 1
  ∧ objects after_program !! "z" = None
  ∧ ∃ s1, CAnyMovable_move "z" "x" after_program = (Done (), s1)
      ∧ owns s1 "z" 1
      ∧ defined_at s1 "x" = Some false
      ∧ operator_assign "x" "z" s1 =
          (Done (), State (<["z" := AnyMovable None]> (objects after_program))
                          (heap after_program) (trace after_program)).
Proof.
  split; [reflexivity|]. split; [reflexivity|].
  apply (move_out_and_back (H := demo) after_program "x" "z" 1); reflexivity.
Defined.

Lemma emplace_dispatch_witness :
  reachable after_program
  ∧ is_Some (objects after_program !! "x")
  ∧ initialise TFlag (number TFlag 1) = Some true
  ∧ ∃ s' l, emplace "x" TFlag (number TFlag 1) after_program = (Done (), s')
      ∧ defined_at s' "x" = Some true
      ∧ state_of s' "x" = Some (Holding TFlag)
      ∧ owns s' "x" l
      ∧ ∀ ms, ∃ s'', calls "x" ms s' = (Done (direct TFlag ms true).1, s'')
          ∧ owns s'' "x" l
          ∧ heap s'' !! l = Some (flag (direct TFlag ms true).2).
Proof.
  split; [apply after_program_reachable|]. split; [by eexists|].
  split; [reflexivity|].
  apply (emplace_dispatch (H := demo) after_program "x" TFlag (number TFlag 1) true
           after_program_reachable); [by eexists|reflexivity].
Defined.

Lemma calls_change_only_their_object_witness :
  reachable after_program
  ∧ ∃ s', calls "x" [Bump; Read] after_program = (Done [5%Z; 6%Z], s')
      ∧ objects s' = objects after_program
      ∧ trace s' = trace after_program
      ∧ (∀ z, state_of s' z = state_of after_program z)
      ∧ (∀ l, ¬ owns after_program "x" l → heap s' !! l = heap after_program !! l)
      ∧ (∀ l, owns after_program "x" l →
           ∃ T k, heap after_program !! l = Some (CObjectStored T k)
             ∧ [5%Z; 6%Z] = (direct T [Bump; Read] (Object k)).1
             ∧ heap s' !! l
               = Some (CObjectStored T (Keeper (direct T [Bump; Read] (Object k)).2)))
      ∧ (∀ y ms', y ≠ "x" → (calls y ms' s').1 = (calls y ms' after_program).1).
Proof.
  split; [apply after_program_reachable|].
  eexists. split; [reflexivity|].
  apply (calls_change_only_their_object (H := demo) after_program "x" [Bump; Read]
           [5%Z; 6%Z] _ after_program_reachable).
  reflexivity.
Defined.

Lemma default_then_emplace_witness :
  objects after_program !! "z" = None
  ∧ ∃ s0, CAnyMovable_default "z" after_program = (Done (), s0)
      ∧ defined_at s0 "z" = Some false
      ∧ match initialise TFlag (number TFlag 7) with
        | Some _ =>
            emplace "z" TFlag (number TFlag 7) s0
            = CAnyMovable_in_place "z" TFlag (number TFlag 7) after_program
        | None =>
            ∃ s1 s2, emplace "z" TFlag (number TFlag 7) s0 = (Throw, s1)
              ∧ CAnyMovable_in_place "z" TFlag (number TFlag 7) after_program = (Throw, s2)
              ∧ defined_at s1 "z" = Some false
              ∧ defined_at s2 "z" = None
              ∧ heap s1 = heap after_program ∧ heap s2 = heap after_program
        end.
Proof.
  split; [reflexivity|].
  apply (default_then_emplace (H := demo) after_program "z" TFlag (number TFlag 7)).
  reflexivity.
Defined.
End OnDemo.

End AnyMovable.
